(** * The extension manager of wifiphisher (wifiphisher/common/extensions.py)

    A shallow embedding of class [ExtensionManager]: the registry of
    extensions, the outbound packet list, the continue flag, the two daemon
    threads ([_listen], [_send]) and the calls of the owning thread.

    Methods are computations in a state-and-exception monad over the manager
    object, threads are program counters stepped one statement at a time by a
    scheduler, and everything the module does not own (the sniffer, the
    socket, the importable modules, the constants) is an input of the
    model. *)

From Stdlib Require Import Ascii.
From stdpp Require Import base option list strings gmap.

(** ** Python values the module handles *)

(** An exception: the name of its class and the name it carries. *)
Record exn := Exn { exn_class : string; exn_arg : string }.

(** What a call yields: a value, or an exception on its way up. *)
Inductive result (A : Type) : Type :=
| Return (a : A)
| Raise (e : exn).
Arguments Return {A} a.
Arguments Raise {A} e.

(** What a method of the manager hands back to its caller. *)
Inductive value :=
| VNone
| VList (l : list string).

(** An object that is [None] or a list, as [get_packet] and [send_output]
    return it. *)
Definition truth {A} (v : option (list A)) : bool :=
  match v with
  | None => false
  | Some [] => false
  | Some (_ :: _) => true
  end.

(** [len(v)], only ever evaluated behind [v and ...], so never on [None]. *)
Definition len {A} (v : option (list A)) : nat :=
  match v with
  | None => 0
  | Some l => length l
  end.

(** The elements [lst += v] appends. *)
Definition items {A} (v : option (list A)) : list A :=
  match v with
  | None => []
  | Some l => l
  end.

(** ** [str.title()] on ASCII *)

Definition is_lower (c : ascii) : bool :=
  Nat.leb 97 (nat_of_ascii c) && Nat.leb (nat_of_ascii c) 122.

Definition is_upper (c : ascii) : bool :=
  Nat.leb 65 (nat_of_ascii c) && Nat.leb (nat_of_ascii c) 90.

Definition to_upper (c : ascii) : ascii :=
  if is_lower c then ascii_of_nat (nat_of_ascii c - 32) else c.

Definition to_lower (c : ascii) : ascii :=
  if is_upper c then ascii_of_nat (nat_of_ascii c + 32) else c.

Fixpoint title_from (prev_cased : bool) (s : string) : string :=
  match s with
  | EmptyString => EmptyString
  | String c s' =>
      if is_lower c || is_upper c
      then String (if prev_cased then to_lower c else to_upper c)
                  (title_from true s')
      else String c (title_from false s')
  end.

Definition title (s : string) : string := title_from false s.

(** ** Names bound at module level

    The imports at the top of extensions.py and the class it defines. *)
Definition module_globals : list string :=
  ["importlib"; "threading"; "collections"; "dot11"; "linux"; "constants";
   "ExtensionManager"].

(** Reading a global name that was never bound raises [NameError]. *)
Definition load_global (name : string) : result unit :=
  if bool_decide (name ∈ module_globals)
  then Return ()
  else Raise (Exn "NameError" name).

(** ** Threads *)

(** A [threading.Thread]: created, running at a program point, or over
    (with the exception that escaped its target, if one did). *)
Inductive Thread (pc : Type) : Type :=
| Initial
| Alive (at_pc : pc)
| Stopped (uncaught : option exn).
Arguments Initial {pc}.
Arguments Alive {pc} at_pc.
Arguments Stopped {pc} uncaught.

(** [Thread.start()] *)
Definition start {pc} (entry : pc) (t : Thread pc) : result (Thread pc) :=
  match t with
  | Initial => Return (Alive entry)
  | _ => Raise (Exn "RuntimeError" "threads can only be started once")
  end.

(** [Thread.join(timeout)]: blocks the caller until the thread is over or
    the timeout has passed, and returns [None] in both cases. *)
Definition join {pc} (timeout : nat) (t : Thread pc) : result unit :=
  match t with
  | Initial => Raise (Exn "RuntimeError" "cannot join thread before it is started")
  | _ => Return ()
  end.

Definition is_alive {pc} (t : Thread pc) : bool :=
  match t with
  | Alive _ => true
  | _ => false
  end.

(** Program points of [_listen]. *)
Inductive listen_pc :=
| L_while
| L_sniff.

(** Program points of [_send]; [S_for i] is the list iterator at index [i]. *)
Inductive send_pc :=
| S_while_outer
| S_if
| S_while_inner
| S_for (i : nat)
| S_sleep
| S_close.

Section Manager.
(** [Frame]: a scapy packet.  [W]: the state owned by the extension
    objects and whatever else they can reach; the manager is not part of
    it, a constructor only receives the shared data.  [Shared]: the
    named tuple made of the shared data.  [Dict]: the dictionary the
    engine passes in. *)
Context {Frame W Shared Dict : Type}.

(** An extension object: its two methods, acting on [W]. *)
Record Extension := {
  get_packet : Frame -> W -> result (option (list Frame)) * W;
  send_output : W -> result (option (list string)) * W
}.

(** An extension class, as called on the shared data. *)
Definition ExtensionClass : Type := Shared -> W -> result Extension * W.

(** What extensions.py takes from outside: the two constants it reads,
    the modules [importlib] can find (each a table of attributes), and
    the conversion of the shared dictionary to a named tuple whose
    fields are its keys. *)
Record Env := {
  EXTENSIONS : list string;
  EXTENSIONS_LOADPATH : string;
  importable : gmap string (gmap string ExtensionClass);
  GenericDict : Dict -> result Shared
}.

(** [linux.L2Socket]: the frames sent through it and how often it was
    closed. *)
Record L2Socket := {
  sent : list Frame;
  closed : nat
}.

Record ExtensionManager := {
  _extensions : list Extension;
  _interface : option string;
  _socket : option L2Socket;
  _should_continue : bool;
  _packets_to_send : list Frame;
  listen_thread : Thread listen_pc;
  send_thread : Thread send_pc;
  heap : W
}.

Definition with_extensions (x : list Extension) (em : ExtensionManager) :=
  {| _extensions := x; _interface := _interface em; _socket := _socket em;
     _should_continue := _should_continue em;
     _packets_to_send := _packets_to_send em;
     listen_thread := listen_thread em; send_thread := send_thread em;
     heap := heap em |}.

Definition with_interface (x : option string) (em : ExtensionManager) :=
  {| _extensions := _extensions em; _interface := x; _socket := _socket em;
     _should_continue := _should_continue em;
     _packets_to_send := _packets_to_send em;
     listen_thread := listen_thread em; send_thread := send_thread em;
     heap := heap em |}.

Definition with_socket (x : option L2Socket) (em : ExtensionManager) :=
  {| _extensions := _extensions em; _interface := _interface em; _socket := x;
     _should_continue := _should_continue em;
     _packets_to_send := _packets_to_send em;
     listen_thread := listen_thread em; send_thread := send_thread em;
     heap := heap em |}.

Definition with_should_continue (x : bool) (em : ExtensionManager) :=
  {| _extensions := _extensions em; _interface := _interface em;
     _socket := _socket em; _should_continue := x;
     _packets_to_send := _packets_to_send em;
     listen_thread := listen_thread em; send_thread := send_thread em;
     heap := heap em |}.

Definition with_packets_to_send (x : list Frame) (em : ExtensionManager) :=
  {| _extensions := _extensions em; _interface := _interface em;
     _socket := _socket em; _should_continue := _should_continue em;
     _packets_to_send := x;
     listen_thread := listen_thread em; send_thread := send_thread em;
     heap := heap em |}.

Definition with_listen_thread (x : Thread listen_pc) (em : ExtensionManager) :=
  {| _extensions := _extensions em; _interface := _interface em;
     _socket := _socket em; _should_continue := _should_continue em;
     _packets_to_send := _packets_to_send em;
     listen_thread := x; send_thread := send_thread em;
     heap := heap em |}.

Definition with_send_thread (x : Thread send_pc) (em : ExtensionManager) :=
  {| _extensions := _extensions em; _interface := _interface em;
     _socket := _socket em; _should_continue := _should_continue em;
     _packets_to_send := _packets_to_send em;
     listen_thread := listen_thread em; send_thread := x;
     heap := heap em |}.

Definition with_heap (x : W) (em : ExtensionManager) :=
  {| _extensions := _extensions em; _interface := _interface em;
     _socket := _socket em; _should_continue := _should_continue em;
     _packets_to_send := _packets_to_send em;
     listen_thread := listen_thread em; send_thread := send_thread em;
     heap := x |}.

(** ** The monad of methods

    A method runs on the manager and ends with a value or an exception;
    what it wrote before raising stays written. *)
Definition Py (A : Type) : Type := ExtensionManager -> result A * ExtensionManager.

Definition ret {A} (a : A) : Py A := fun em => (Return a, em).

Definition raise {A} (e : exn) : Py A := fun em => (Raise e, em).

Definition bind {A B} (m : Py A) (k : A -> Py B) : Py B :=
  fun em =>
    match m em with
    | (Return a, em') => k a em'
    | (Raise e, em') => (Raise e, em')
    end.

Definition gets {A} (f : ExtensionManager -> A) : Py A :=
  fun em => (Return (f em), em).

Definition modify (f : ExtensionManager -> ExtensionManager) : Py unit :=
  fun em => (Return (), f em).

Definition lift {A} (r : result A) : Py A := fun em => (r, em).

(** A method call on an extension object. *)
Definition call {A} (m : W -> result A * W) : Py A :=
  fun em => let '(r, w) := m (heap em) in (r, with_heap w em).
End Manager.

Arguments Extension : clear implicits.
Arguments ExtensionClass : clear implicits.
Arguments Env : clear implicits.
Arguments L2Socket : clear implicits.
Arguments ExtensionManager : clear implicits.

Notation "'let*' x ':=' m 'in' k" := (bind m (fun x => k))
  (at level 10, x name, m at level 100, k at level 200, only parsing).

(** ** The methods of [ExtensionManager] *)

Section Methods.
Context {Frame W Shared Dict : Type}.
Variable env : Env Frame W Shared Dict.

Local Abbreviation EM := (ExtensionManager Frame W).
Local Abbreviation M := (@Py Frame W).

(** [ExtensionManager()], with the extensions' world as it is then. *)
Definition __init__ (w : W) : EM :=
  {| _extensions := [];
     _interface := None;
     _socket := None;
     _should_continue := true;
     _packets_to_send := [];
     listen_thread := Initial;
     send_thread := Initial;
     heap := w |}.

(** [for x in l: body(x)] *)
Fixpoint for_each {A} (l : list A) (body : A -> M unit) : M unit :=
  match l with
  | [] => ret ()
  | x :: l' => let* _ := body x in for_each l' body
  end.

(** The same loop carrying a local variable. *)
Fixpoint for_fold {A B} (l : list A) (acc : B) (body : B -> A -> M B) : M B :=
  match l with
  | [] => ret acc
  | x :: l' => let* acc' := body acc x in for_fold l' acc' body
  end.

(** [linux.L2Socket(iface=...)]: a fresh socket, unless opening fails. *)
Definition open_socket (fault : option exn) : M (L2Socket Frame) :=
  match fault with
  | Some e => raise e
  | None => ret {| sent := []; closed := 0 |}
  end.

Definition set_interface (interface : string) (fault : option exn) : M value :=
  let* _ := modify (with_interface (Some interface)) in
  let* sock := open_socket fault in
  let* _ := modify (with_socket (Some sock)) in
  ret VNone.

(** [importlib.import_module(name)] *)
Definition import_module (name : string) : M (gmap string (ExtensionClass Frame W Shared)) :=
  match importable env !! name with
  | Some m => ret m
  | None => raise (Exn "ImportError" name)
  end.

(** [getattr(mod, name)] *)
Definition getattr (m : gmap string (ExtensionClass Frame W Shared)) (name : string)
  : M (ExtensionClass Frame W Shared) :=
  match m !! name with
  | Some c => ret c
  | None => raise (Exn "AttributeError" name)
  end.

(** The body of the loop of [init_extensions]. *)
Definition load_extension (shared_data : Shared) (extension : string) : M unit :=
  let* mod_ := import_module (EXTENSIONS_LOADPATH env +:+ extension) in
  let* cls := getattr mod_ (title extension) in
  let* obj := call (cls shared_data) in
  modify (fun em => with_extensions (_extensions em ++ [obj]) em).

Definition init_extensions (shared_data : Dict) : M value :=
  let* shared_data' := lift (GenericDict env shared_data) in
  let* _ := for_each (EXTENSIONS env) (load_extension shared_data') in
  ret VNone.

Definition start_extensions : M value :=
  let* t := gets listen_thread in
  let* t' := lift (start L_while t) in
  let* _ := modify (with_listen_thread t') in
  let* t := gets send_thread in
  let* t' := lift (start S_while_outer t) in
  let* _ := modify (with_send_thread t') in
  ret VNone.

Definition on_exit : M value :=
  let* _ := modify (with_should_continue false) in
  let* t := gets listen_thread in
  let* _ := lift (join 5 t) in
  let* t := gets send_thread in
  let* _ := lift (join 5 t) in
  ret VNone.

(** The body of the loop of [get_output], on the local [output]. *)
Definition collect_output (output : list string) (extension : Extension Frame W)
  : M (list string) :=
  let* m_output := call (send_output extension) in
  if truth m_output && Nat.ltb 0 (len m_output)
  then ret (output ++ items m_output)
  else ret output.

Definition get_output : M (list string) :=
  let* exts := gets _extensions in
  for_fold exts [] collect_output.

(** The body of the loop of [_process_packet]. *)
Definition forward_packet (pkt : Frame) (extension : Extension Frame W) : M unit :=
  let* received_packets := call (get_packet extension pkt) in
  if truth received_packets && Nat.ltb 0 (len received_packets)
  then modify (fun em =>
         with_packets_to_send (_packets_to_send em ++ items received_packets) em)
  else ret ().

Definition _process_packet (pkt : Frame) : M unit :=
  let* exts := gets _extensions in
  for_each exts (forward_packet pkt).

Definition _stopfilter (pkt : Frame) : M bool :=
  let* c := gets _should_continue in
  ret (negb c).

(** ** The two daemons *)

(** What the wireless card does to a pending [sniff]. *)
Inductive sniff_event :=
| Captured (pkt : Frame)
| Failed (e : exn).

(** [sniff(count=1, store=0, prn=..., stop_filter=...)]: on the first
    packet it calls [prn], then [stop_filter], and returns.  An exception
    of [prn] is taken to leave [sniff]; that is the library's choice, and
    no statement about [_process_packet] alone depends on it. *)
Definition sniff (ev : sniff_event) (prn : Frame -> M unit)
    (stop_filter : Frame -> M bool) : M unit :=
  match ev with
  | Captured pkt =>
      let* _ := prn pkt in
      let* _stop := stop_filter pkt in
      ret ()
  | Failed e => raise e
  end.

(** The handler both targets end with: a bare [except] whose body is
    [if not self._should_continue: pass] and nothing else; the target
    returns after it. *)
Definition except_clause {pc} (e : exn) (em : EM) : Thread pc :=
  if negb (_should_continue em)
  then Stopped None
  else Stopped None.

(** One statement of [_listen]. *)
Definition _listen (ev : sniff_event) (em : EM) : EM :=
  match listen_thread em with
  | Alive L_while =>
      if _should_continue em
      then with_listen_thread (Alive L_sniff) em
      else with_listen_thread (Stopped None) em
  | Alive L_sniff =>
      match sniff ev _process_packet _stopfilter em with
      | (Return _, em') => with_listen_thread (Alive L_while) em'
      | (Raise e, em') => with_listen_thread (except_clause e em') em'
      end
  | _ => em
  end.

(** [self._socket.send(pkt)] *)
Definition socket_send (fault : option exn) (pkt : Frame) : M unit :=
  let* s := gets _socket in
  match s with
  | None => raise (Exn "AttributeError" "send")
  | Some sock =>
      match fault with
      | Some e => raise e
      | None =>
          modify (with_socket
                    (Some {| sent := sent sock ++ [pkt]; closed := closed sock |}))
      end
  end.

(** [self._socket.close()] *)
Definition socket_close : M unit :=
  let* s := gets _socket in
  match s with
  | None => raise (Exn "AttributeError" "close")
  | Some sock =>
      modify (with_socket (Some {| sent := sent sock; closed := S (closed sock) |}))
  end.

(** One statement of [_send]. *)
Definition _send (fault : option exn) (em : EM) : EM :=
  match send_thread em with
  | Alive S_while_outer =>
      if _should_continue em
      then with_send_thread (Alive S_if) em
      else with_send_thread (Alive S_sleep) em
  | Alive S_if =>
      if Nat.ltb 0 (length (_packets_to_send em))
      then with_send_thread (Alive S_while_inner) em
      else with_send_thread (Alive S_while_outer) em
  | Alive S_while_inner =>
      if _should_continue em
      then with_send_thread (Alive (S_for 0)) em
      else with_send_thread (Alive S_while_outer) em
  | Alive (S_for i) =>
      match _packets_to_send em !! i with
      | Some pkt =>
          match socket_send fault pkt em with
          | (Return _, em') => with_send_thread (Alive (S_for (S i))) em'
          | (Raise e, em') => with_send_thread (except_clause e em') em'
          end
      | None => with_send_thread (Alive S_while_inner) em
      end
  | Alive S_sleep =>
      (* time.sleep(1) *)
      match load_global "time" with
      | Return _ => with_send_thread (Alive S_close) em
      | Raise e => with_send_thread (except_clause e em) em
      end
  | Alive S_close =>
      match socket_close em with
      | (Return _, em') => with_send_thread (Stopped None) em'
      | (Raise e, em') => with_send_thread (except_clause e em') em'
      end
  | _ => em
  end.

(** ** Runs

    What can happen next: the owning thread calls a method, or one of the
    daemons executes its next statement. *)
Inductive action :=
| Call_set_interface (interface : string) (fault : option exn)
| Call_init_extensions (shared_data : Dict)
| Call_start_extensions
| Call_on_exit
| Call_get_output
| Tick_listen (ev : sniff_event)
| Tick_send (fault : option exn).

Definition step (em : EM) (a : action) : EM :=
  match a with
  | Call_set_interface interface fault => (set_interface interface fault em).2
  | Call_init_extensions shared_data => (init_extensions shared_data em).2
  | Call_start_extensions => (start_extensions em).2
  | Call_on_exit => (on_exit em).2
  | Call_get_output => (get_output em).2
  | Tick_listen ev => _listen ev em
  | Tick_send fault => _send fault em
  end.

Definition run (sched : list action) (em : EM) : EM := foldl step em sched.

(** How often the handle of the manager was closed. *)
Definition times_closed (em : EM) : nat :=
  match _socket em with
  | None => 0
  | Some sock => closed sock
  end.
End Methods.

Arguments sniff_event : clear implicits.
Arguments action : clear implicits.

(** ** Vocabulary of the properties *)

Section Properties.
Context {Frame W Shared Dict : Type}.

Local Abbreviation EM := (ExtensionManager Frame W).

(** [ingests pkt exts w vs w']: offering [pkt] to the extensions [exts] in
    order, from world [w], the calls of [get_packet] that return yield the
    values [vs], and leave the world [w']; the offering ends with the list
    or with the first call that raises. *)
Inductive ingests (pkt : Frame)
  : list (Extension Frame W) -> W -> list (option (list Frame)) -> W -> Prop :=
| ingests_nil w :
    ingests pkt [] w [] w
| ingests_return x exts w v w1 vs w2 :
    get_packet x pkt w = (Return v, w1) ->
    ingests pkt exts w1 vs w2 ->
    ingests pkt (x :: exts) w (v :: vs) w2
| ingests_raise x exts w e w1 :
    get_packet x pkt w = (Raise e, w1) ->
    ingests pkt (x :: exts) w [] w1.

(** [drains exts w vs w']: every extension of [exts], asked in order from
    world [w], returns from [send_output]; the values are [vs]. *)
Inductive drains
  : list (Extension Frame W) -> W -> list (option (list string)) -> W -> Prop :=
| drains_nil w :
    drains [] w [] w
| drains_return x exts w v w1 vs w2 :
    send_output x w = (Return v, w1) ->
    drains exts w1 vs w2 ->
    drains (x :: exts) w (v :: vs) w2.

(** A computation all of whose runs relate the manager before to the
    manager after. *)
Definition respects (R : relation EM) {A} (m : Py A) : Prop :=
  forall em, R em (m em).2.

(** The continue flag is left as it was. *)
Definition flag_kept : relation EM :=
  fun em em' => _should_continue em' = _should_continue em.

(** The outbound list only grew at its end. *)
Definition queue_grows : relation EM :=
  fun em em' => _packets_to_send em `prefix_of` _packets_to_send em'.

(** Neither the socket nor the sending thread was touched. *)
Definition sender_kept : relation EM :=
  fun em em' => _socket em' = _socket em /\ send_thread em' = send_thread em.

(** The handle is open and [_send] is not about to close it. *)
Definition handle_open (em : EM) : Prop :=
  times_closed em = 0 /\ send_thread em <> Alive S_close.

Definition is_on_exit (a : action Frame Dict) : bool :=
  match a with
  | Call_on_exit => true
  | _ => false
  end.

(** The class an identifier stands for, if the module is on the path and
    defines it. *)
Definition constructor_of (env : Env Frame W Shared Dict) (extension : string)
  : option (ExtensionClass Frame W Shared) :=
  match importable env !! (EXTENSIONS_LOADPATH env +:+ extension) with
  | Some m => m !! title extension
  | None => None
  end.

(** The daemons that have not come to an end. *)
Definition still_running (em : EM) : list string :=
  (if is_alive (listen_thread em) then ["listen_thread"] else []) ++
  (if is_alive (send_thread em) then ["send_thread"] else []).

(** *** Further vocabulary *)

(** The registry only grew at its end. *)
Definition registry_grows : relation EM :=
  fun em em' => _extensions em `prefix_of` _extensions em'.

(** The listening thread was not touched. *)
Definition listener_kept : relation EM :=
  fun em em' => listen_thread em' = listen_thread em.

(** The sending thread was not touched. *)
Definition sender_thread_kept : relation EM :=
  fun em em' => send_thread em' = send_thread em.

(** The outbound list is as it was. *)
Definition queue_kept : relation EM :=
  fun em em' => _packets_to_send em' = _packets_to_send em.

(** The socket was not touched and the outbound list only grew. *)
Definition traffic_kept : relation EM :=
  fun em em' =>
    _socket em' = _socket em /\
    _packets_to_send em `prefix_of` _packets_to_send em'.

(** Nothing of the manager changed but the world of the extensions. *)
Definition heap_only : relation EM :=
  fun em em' => exists w, em' = with_heap w em.

(** Statements [_send] has left at most, once the flag is cleared and the
    list no longer grows. *)
Definition send_fuel (em : EM) : nat :=
  match send_thread em with
  | Alive S_while_outer => 2
  | Alive S_if => 4
  | Alive S_while_inner => 3
  | Alive (S_for i) => (length (_packets_to_send em) - i) + 4
  | Alive S_sleep => 1
  | Alive S_close => 1
  | _ => 0
  end.

(** [_send] is inside its loops, with a socket and the flag set. *)
Definition sender_at_work (em : EM) : Prop :=
  _should_continue em = true /\
  _socket em <> None /\
  match send_thread em with
  | Alive S_sleep | Alive S_close => False
  | Alive _ => True
  | _ => False
  end.

(** Steps that neither request shutdown nor make a send fail. *)
Definition calm (a : action Frame Dict) : bool :=
  match a with
  | Call_on_exit => false
  | Tick_send (Some _) => false
  | _ => true
  end.

(** Whatever went through the socket is in the outbound list. *)
Definition only_queued (em : EM) : Prop :=
  forall sock pkt, _socket em = Some sock -> pkt ∈ sent sock -> pkt ∈ _packets_to_send em.

(** A string of lower-case ASCII letters. *)
Fixpoint all_lower (s : string) : bool :=
  match s with
  | EmptyString => true
  | String c s' => is_lower c && all_lower s'
  end.
End Properties.

(** ** Concrete extensions and environments

    Frames and log lines are strings; the world is a journal in which every
    extension writes its name each time [get_packet] is called on it. *)

Module Examples.
Definition journal : Type := list string.

Definition EM : Type := ExtensionManager string journal.

(** An extension answering every packet with [reply] and reporting
    [lines]. *)
Definition replying (name : string) (reply lines : option (list string))
  : Extension string journal :=
  {| get_packet := fun _ w => (Return reply, w ++ [name]);
     send_output := fun w => (Return lines, w) |}.

(** An extension whose [get_packet] raises [e]. *)
Definition failing (name : string) (e : exn) : Extension string journal :=
  {| get_packet := fun _ w => (Raise e, w ++ [name]);
     send_output := fun w => (Return None, w) |}.

(** A class whose constructor works, and one whose constructor raises. *)
Definition sound_class (name : string) : ExtensionClass string journal unit :=
  fun _ w => (Return (replying name None None), w).

Definition broken_class (e : exn) : ExtensionClass string journal unit :=
  fun _ w => (Raise e, w).

Definition loadpath : string := "wifiphisher.extensions.".

(** Extensions [x] and [y] configured, only module [x] on the path. *)
Definition env_y_missing : Env string journal unit unit :=
  {| EXTENSIONS := ["x"; "y"];
     EXTENSIONS_LOADPATH := loadpath;
     importable := {[ loadpath +:+ "x" := {[ "X" := sound_class "x" ]} ]};
     GenericDict := fun d => Return d |}.

(** The same with a module [y] that defines no class [Y]. *)
Definition env_y_classless : Env string journal unit unit :=
  {| EXTENSIONS := ["x"; "y"];
     EXTENSIONS_LOADPATH := loadpath;
     importable := {[ loadpath +:+ "x" := {[ "X" := sound_class "x" ]};
                      loadpath +:+ "y" := ∅ ]};
     GenericDict := fun d => Return d |}.

Definition resource_unavailable : exn := Exn "IOError" "resource unavailable".

(** Both modules on the path, the constructor of [Y] raising. *)
Definition env_y_broken : Env string journal unit unit :=
  {| EXTENSIONS := ["x"; "y"];
     EXTENSIONS_LOADPATH := loadpath;
     importable :=
       {[ loadpath +:+ "x" := {[ "X" := sound_class "x" ]};
          loadpath +:+ "y" := {[ "Y" := broken_class resource_unavailable ]} ]};
     GenericDict := fun d => Return d |}.

(** No extension configured. *)
Definition env_bare : Env string journal unit unit :=
  {| EXTENSIONS := [];
     EXTENSIONS_LOADPATH := loadpath;
     importable := ∅;
     GenericDict := fun d => Return d |}.

Definition network_is_down : exn := Exn "OSError" "Network is down".

Definition bad_frame : exn := Exn "ValueError" "bad frame".

(** A manager on [wlan0] with both daemons started and a given registry. *)
Definition started (exts : list (Extension string journal)) : EM :=
  with_extensions exts
    (run env_bare
       [Call_set_interface "wlan0" None; Call_start_extensions]
       (__init__ [])).

(** A run in which nothing is ever queued and shutdown is requested. *)
Definition idle_then_exit : list (action string unit) :=
  [Call_set_interface "wlan0" None; Call_start_extensions;
   Tick_send None; Tick_send None;
   Call_on_exit;
   Tick_send None; Tick_send None].

(** A run in which a frame is queued and sent before shutdown. *)
Definition busy_then_exit : list (action string unit) :=
  [Call_set_interface "wlan0" None; Call_start_extensions;
   Tick_listen (Captured "F1"); Tick_listen (Captured "F1");
   Tick_send None; Tick_send None; Tick_send None; Tick_send None;
   Call_on_exit;
   Tick_send None; Tick_send None; Tick_send None; Tick_send None].

(** A registry whose first extension raises on every packet. *)
Definition bad_then_good : list (Extension string journal) :=
  [failing "bad" bad_frame; replying "good" (Some ["G"]) None].

(** A registry whose second extension raises on every packet. *)
Definition bad_in_the_middle : list (Extension string journal) :=
  [replying "first" (Some ["G1"]) None;
   failing "bad" bad_frame;
   replying "last" (Some ["G2"]) None].

(** Results of every kind: two frames, [None], no frame, one frame. *)
Definition mixed_repliers : list (Extension string journal) :=
  [replying "A" (Some ["G1"; "G2"]) None;
   replying "B" None None;
   replying "C" (Some []) None;
   replying "D" (Some ["G3"]) None].

(** Extension [A] with two lines to report, extension [B] with none. *)
Definition loggers : list (Extension string journal) :=
  [replying "A" None (Some ["a1"; "a2"]); replying "B" None (Some [])].

(** [_listen] enters [sniff], then the card delivers [F1] and [F2]. *)
Definition two_frames : list (action string unit) :=
  [Tick_listen (Captured "F1"); Tick_listen (Captured "F1");
   Tick_listen (Captured "F2"); Tick_listen (Captured "F2")].

(** Shutdown while [_listen] waits in [sniff] and no packet arrives; [_send]
    runs to its end. *)
Definition exit_while_sniffing : list (action string unit) :=
  [Tick_listen (Captured "F1"); Call_on_exit; Tick_send None; Tick_send None].

(** Shutdown while [_listen] is at its loop test; both daemons run to their
    end. *)
Definition exit_between_sniffs : list (action string unit) :=
  [Call_on_exit; Tick_listen (Captured "F1"); Tick_send None; Tick_send None].

(** Extension [x] alone configured, and on the path. *)
Definition env_x_only : Env string journal unit unit :=
  {| EXTENSIONS := ["x"];
     EXTENSIONS_LOADPATH := loadpath;
     importable := {[ loadpath +:+ "x" := {[ "X" := sound_class "x" ]} ]};
     GenericDict := fun d => Return d |}.

(** An extension whose [send_output] raises [e]. *)
Definition mute (name : string) (e : exn) : Extension string journal :=
  {| get_packet := fun _ w => (Return None, w ++ [name]);
     send_output := fun w => (Raise e, w ++ [name]) |}.

Definition log_unavailable : exn := Exn "IOError" "log unavailable".

(** A registry whose second extension cannot report. *)
Definition mute_in_the_middle : list (Extension string journal) :=
  [replying "A" None (Some ["a1"; "a2"]);
   mute "M" log_unavailable;
   replying "B" None (Some ["b1"])].

(** A started manager with three frames queued, [_send] at the head of its
    [for] loop. *)
Definition sending_three : EM :=
  with_send_thread (Alive (S_for 0))
    (with_packets_to_send ["G1"; "G2"; "G3"] (started [])).
End Examples.


(** * Properties *)

(** ** Relations kept by every statement of a method *)

Section Respects.
Context {Frame W : Type}.
Context (R : relation (ExtensionManager Frame W)) `{!PreOrder R}.

Lemma respects_ret {A} (a : A) : respects R (ret a).
Proof. intros em. reflexivity. Qed.

Lemma respects_raise {A} (e : exn) : respects R (@raise Frame W A e).
Proof. intros em. reflexivity. Qed.

Lemma respects_lift {A} (r : result A) : respects R (lift r).
Proof. intros em. reflexivity. Qed.

Lemma respects_gets {A} (f : ExtensionManager Frame W -> A) : respects R (gets f).
Proof. intros em. reflexivity. Qed.

Lemma respects_modify f : (forall em, R em (f em)) -> respects R (modify f).
Proof. intros Hf em. apply Hf. Qed.

Lemma respects_call {A} (m : W -> result A * W) :
  (forall w em, R em (with_heap w em)) -> respects R (call m).
Proof.
  intros Hw em. unfold call. destruct (m (heap em)) as [r w]. apply Hw.
Qed.

Lemma respects_bind {A B} (m : Py A) (k : A -> Py B) :
  respects R m -> (forall a, respects R (k a)) -> respects R (bind m k).
Proof.
  intros Hm Hk em. unfold bind. specialize (Hm em).
  destruct (m em) as [[a|e] em']; simpl in *.
  - etrans; [exact Hm | apply Hk].
  - exact Hm.
Qed.

Lemma respects_for_each {A} (l : list A) body :
  (forall x, respects R (body x)) -> respects R (for_each l body).
Proof.
  intros Hbody. induction l as [|x l IH]; simpl.
  - apply respects_ret.
  - apply respects_bind; auto.
Qed.

Lemma respects_for_fold {A B} (l : list A) (acc : B) body :
  (forall b x, respects R (body b x)) -> respects R (for_fold l acc body).
Proof.
  intros Hbody. revert acc. induction l as [|x l IH]; intros acc; simpl.
  - apply respects_ret.
  - apply respects_bind; auto.
Qed.
End Respects.

(** Reduces [respects R m] to what the writes of [m] do to [R]. *)
Ltac respects_step :=
  lazymatch goal with
  | |- respects _ (bind _ _) => apply respects_bind; [exact _ | | intros ?]
  | |- respects _ (ret _) => apply respects_ret; exact _
  | |- respects _ (raise _) => apply respects_raise; exact _
  | |- respects _ (lift _) => apply respects_lift; exact _
  | |- respects _ (gets _) => apply respects_gets; exact _
  | |- respects _ (modify _) => apply respects_modify; intros ?
  | |- respects _ (call _) => apply respects_call; intros ? ?
  | |- respects _ (for_each _ _) => apply respects_for_each; [exact _ | intros ?]
  | |- respects _ (for_fold _ _ _) =>
      apply respects_for_fold; [exact _ | intros ? ?]
  | |- respects _ (match ?x with _ => _ end) => destruct x
  | |- respects _ (if ?x then _ else _) => destruct x
  end.

Ltac respects_auto := repeat respects_step.

(** ** What each method and daemon may write *)

Section Footprint.
Context {Frame W Shared Dict : Type}.
Variable env : Env Frame W Shared Dict.
Context (R : relation (ExtensionManager Frame W)) `{!PreOrder R}.

Hypothesis on_heap : forall w em, R em (with_heap w em).
Hypothesis on_registry :
  forall x em, R em (with_extensions (_extensions em ++ x) em).
Hypothesis on_queue :
  forall x em, R em (with_packets_to_send (_packets_to_send em ++ x) em).
Hypothesis on_interface : forall x em, R em (with_interface x em).
Hypothesis on_socket : forall x em, R em (with_socket x em).
Hypothesis on_listen_thread : forall x em, R em (with_listen_thread x em).
Hypothesis on_send_thread : forall x em, R em (with_send_thread x em).

Lemma init_extensions_respects shared_data :
  respects R (init_extensions env shared_data).
Proof using on_heap on_registry PreOrder0.
  unfold init_extensions, load_extension, import_module, getattr.
  respects_auto; auto.
Qed.

Lemma get_output_respects : respects R (@get_output Frame W).
Proof using on_heap PreOrder0.
  unfold get_output, collect_output. respects_auto; auto.
Qed.

Lemma _process_packet_respects pkt : respects R (@_process_packet Frame W pkt).
Proof using on_heap on_queue PreOrder0.
  unfold _process_packet, forward_packet. respects_auto; auto.
Qed.

Lemma sniff_respects ev :
  respects R (@sniff Frame W ev _process_packet _stopfilter).
Proof using on_heap on_queue PreOrder0.
  unfold sniff, _stopfilter. destruct ev; respects_auto.
  apply _process_packet_respects.
Qed.

Lemma _listen_respects ev em : R em (_listen ev em).
Proof using on_heap on_queue on_listen_thread PreOrder0.
  unfold _listen. destruct (listen_thread em) as [|[]|]; try reflexivity.
  - destruct (_should_continue em); apply on_listen_thread.
  - pose proof (sniff_respects ev em) as H.
    destruct (sniff _ _ _ em) as [[?|?] em']; simpl in H;
      (etrans; [exact H | apply on_listen_thread]).
Qed.

Lemma socket_send_respects fault pkt : respects R (@socket_send Frame W fault pkt).
Proof using on_socket PreOrder0. unfold socket_send. respects_auto; auto. Qed.

Lemma socket_close_respects : respects R (@socket_close Frame W).
Proof using on_socket PreOrder0. unfold socket_close. respects_auto; auto. Qed.

Lemma _send_respects fault em : R em (_send fault em).
Proof using on_socket on_send_thread PreOrder0.
  unfold _send. destruct (send_thread em) as [|[]|]; try reflexivity.
  - destruct (_should_continue em); apply on_send_thread.
  - destruct (Nat.ltb _ _); apply on_send_thread.
  - destruct (_should_continue em); apply on_send_thread.
  - destruct (_packets_to_send em !! i) as [pkt|]; [|apply on_send_thread].
    pose proof (socket_send_respects fault pkt em) as H.
    destruct (socket_send _ _ em) as [[?|?] em']; simpl in H;
      (etrans; [exact H | apply on_send_thread]).
  - destruct (load_global "time"); apply on_send_thread.
  - pose proof (socket_close_respects em) as H.
    destruct (socket_close em) as [[?|?] em']; simpl in H;
      (etrans; [exact H | apply on_send_thread]).
Qed.

Lemma set_interface_respects interface fault :
  respects R (@set_interface Frame W interface fault).
Proof using on_interface on_socket PreOrder0.
  unfold set_interface, open_socket. respects_auto; auto.
Qed.

Lemma start_extensions_respects : respects R (@start_extensions Frame W).
Proof using on_listen_thread on_send_thread PreOrder0.
  unfold start_extensions. respects_auto; auto.
Qed.

(** Every step but a call of [on_exit]. *)
Lemma step_respects em a : is_on_exit a = false -> R em (step env em a).
Proof using All.
  destruct a; simpl; intros Ha; try discriminate.
  - apply set_interface_respects.
  - apply init_extensions_respects.
  - apply start_extensions_respects.
  - apply get_output_respects.
  - apply _listen_respects.
  - apply _send_respects.
Qed.
End Footprint.

(** [on_exit] writes the flag and nothing else. *)
Lemma on_exit_writes {Frame W} (em : ExtensionManager Frame W) :
  (on_exit em).2 = with_should_continue false em.
Proof.
  unfold on_exit, bind, modify, gets, lift, ret. simpl.
  destruct (join 5 (listen_thread em)); simpl; [|reflexivity].
  destruct (join 5 (send_thread em)); reflexivity.
Qed.

Section Invariants.
Context {Frame W Shared Dict : Type}.
Variable env : Env Frame W Shared Dict.

Local Abbreviation EM := (ExtensionManager Frame W).

#[local] Instance flag_kept_preorder : PreOrder (@flag_kept Frame W).
Proof.
  split.
  - intros em. reflexivity.
  - intros a b c Hab Hbc. unfold flag_kept in *. congruence.
Qed.

#[local] Instance queue_grows_preorder : PreOrder (@queue_grows Frame W).
Proof.
  split.
  - intros em. unfold queue_grows. reflexivity.
  - intros a b c Hab Hbc. unfold queue_grows in *. by etrans.
Qed.

#[local] Instance sender_kept_preorder : PreOrder (@sender_kept Frame W).
Proof.
  split.
  - intros em. by split.
  - intros a b c [? ?] [? ?]. split; congruence.
Qed.

(** *** The continue flag *)

(** A step writes the flag only when it is [on_exit], and then clears it. *)
Lemma step_flag (em : EM) a :
  _should_continue (step env em a) = _should_continue em && negb (is_on_exit a).
Proof.
  destruct (is_on_exit a) eqn:Ha.
  - destruct a; try discriminate. simpl.
    rewrite on_exit_writes. by rewrite andb_false_r.
  - rewrite andb_true_r.
    apply (step_respects env flag_kept); auto; intros; exact eq_refl.
Qed.

Lemma run_flag sched (em : EM) :
  _should_continue (run env sched em)
  = _should_continue em && negb (existsb is_on_exit sched).
Proof.
  unfold run. revert em. induction sched as [|a sched IH]; intros em; simpl.
  - by rewrite andb_true_r.
  - rewrite IH, step_flag. rewrite negb_orb. by rewrite andb_assoc.
Qed.

(** C9: the continue flag starts as [True]; after any run of method calls and
    daemon statements it is [True] exactly when it was [True] before and
    [on_exit] was not called in between; so once [on_exit] has been called
    it stays [False] whatever is called afterwards. *)
Theorem should_continue_cleared_once :
  (forall w : W, _should_continue (@__init__ Frame W w) = true) /\
  (forall sched (em : EM),
     _should_continue (run env sched em)
     = _should_continue em && negb (existsb is_on_exit sched)) /\
  (forall before after (em : EM),
     _should_continue (run env (before ++ Call_on_exit :: after) em) = false).
Proof.
  split; [reflexivity|]. split; [apply run_flag|].
  intros before after em. rewrite run_flag.
  rewrite existsb_app. simpl. rewrite orb_true_r. apply andb_false_r.
Qed.

(** *** The outbound list *)

Lemma step_queue (em : EM) a : queue_grows em (step env em a).
Proof.
  destruct (is_on_exit a) eqn:Ha.
  - destruct a; try discriminate. simpl. rewrite on_exit_writes.
    unfold queue_grows. reflexivity.
  - apply (step_respects env queue_grows); auto; intros; unfold queue_grows;
      simpl; try reflexivity.
    by apply prefix_app_r.
Qed.

(** C10: no step of any run removes or moves a frame of the outbound list:
    whatever the daemons and the owning thread do, the list before is a
    prefix of the list after, so a frame once at index [i] stays at index
    [i]. *)
Theorem packets_to_send_never_drained :
  (forall sched (em : EM),
     exists appended,
       _packets_to_send (run env sched em) = _packets_to_send em ++ appended) /\
  (forall sched (em : EM) i pkt,
     _packets_to_send em !! i = Some pkt ->
     _packets_to_send (run env sched em) !! i = Some pkt).
Proof.
  assert (Hrun : forall sched (em : EM), queue_grows em (run env sched em)).
  { unfold run. intros sched. induction sched as [|a sched IH]; intros em; simpl.
    - reflexivity.
    - etrans; [apply step_queue | apply IH]. }
  split.
  - intros sched em. exact (Hrun sched em).
  - intros sched em i pkt Hi. destruct (Hrun sched em) as [k ->].
    by apply lookup_app_l_Some.
Qed.

(** *** The socket *)

Lemma handle_open_sender_kept (em em' : EM) :
  sender_kept em em' -> handle_open em -> handle_open em'.
Proof.
  intros [Hs Ht] [Hc Hp]. unfold handle_open, times_closed in *.
  rewrite Hs, Ht. by split.
Qed.

Lemma except_clause_stops {pc} e (em : EM) : @except_clause Frame W pc e em = Stopped None.
Proof. unfold except_clause. by destruct (_should_continue em). Qed.

Lemma _send_handle_open fault (em : EM) :
  handle_open em -> handle_open (_send fault em).
Proof.
  intros [Hc Hp]. unfold _send.
  destruct (send_thread em) as [|[]|] eqn:Ht.
  all: try (split; [exact Hc | by rewrite Ht]).
  - destruct (_should_continue em); (split; [exact Hc | simpl; congruence]).
  - destruct (Nat.ltb _ _); (split; [exact Hc | simpl; congruence]).
  - destruct (_should_continue em); (split; [exact Hc | simpl; congruence]).
  - destruct (_packets_to_send em !! i) as [pkt|];
      [|split; [exact Hc | simpl; congruence]].
    unfold socket_send, bind, gets, modify, raise. simpl.
    destruct (_socket em) as [sock|] eqn:Hs; [destruct fault|]; simpl;
      rewrite ?except_clause_stops;
      (split; [|simpl; congruence]); try exact Hc.
    unfold times_closed in *. simpl. by rewrite Hs in Hc.
  - simpl. rewrite except_clause_stops. split; [exact Hc | simpl; congruence].
  - congruence.
Qed.

Lemma step_handle_open (em : EM) a :
  handle_open em -> handle_open (step env em a).
Proof.
  intros Hopen. destruct a; simpl.
  - destruct Hopen as [Hc Hp].
    unfold set_interface, open_socket, bind, modify, ret, raise.
    destruct fault; (split; [first [exact Hc | reflexivity] | exact Hp]).
  - apply (handle_open_sender_kept em); [|exact Hopen].
    apply (init_extensions_respects env sender_kept); intros; by split.
  - destruct Hopen as [Hc Hp].
    unfold start_extensions, bind, modify, gets, lift, ret, start.
    destruct (listen_thread em); simpl; try (split; [exact Hc | exact Hp]).
    destruct (send_thread em) eqn:Ht; simpl;
      (split; [exact Hc | simpl; congruence]).
  - rewrite on_exit_writes. exact Hopen.
  - apply (handle_open_sender_kept em); [|exact Hopen].
    apply (get_output_respects sender_kept); intros; by split.
  - apply (handle_open_sender_kept em); [|exact Hopen].
    apply (_listen_respects sender_kept); intros; by split.
  - by apply _send_handle_open.
Qed.

Lemma run_handle_open sched (em : EM) :
  handle_open em -> handle_open (run env sched em).
Proof.
  unfold run. revert em. induction sched as [|a sched IH]; intros em Hopen.
  - exact Hopen.
  - simpl. apply IH. by apply step_handle_open.
Qed.

Lemma init_handle_open (w : W) : handle_open (@__init__ Frame W w).
Proof. by split. Qed.
End Invariants.

(** C10 at work: a frame queued before shutdown is still first in the list
    after it. *)
Lemma packets_to_send_never_drained_witness :
  let em := Examples.started [Examples.replying "p" (Some ["G1"]) None] in
  let queued := run Examples.env_bare
                  [Tick_listen (Captured "F1"); Tick_listen (Captured "F1")] em in
  _packets_to_send queued !! 0 = Some "G1" /\
  _packets_to_send
    (run Examples.env_bare [Tick_send None; Tick_send None; Call_on_exit;
                            Tick_send None] queued) !! 0 = Some "G1".
Proof.
  split; [reflexivity|].
  apply (proj2 (packets_to_send_never_drained Examples.env_bare)).
  reflexivity.
Defined.

(** C1: [_send] never closes the socket.  In every run, from a fresh manager,
    the handle has been closed zero times: the statement after the loops,
    [time.sleep(1)], reads a name the module never imports, the
    [NameError] lands in the bare [except], and [self._socket.close()] is
    not reached.  Two runs to the end of [_send] show it: one in which the
    list stays empty, one in which a frame is queued and sent. *)
Theorem send_never_closes_socket :
  (forall (Frame W Shared Dict : Type) (env : Env Frame W Shared Dict) sched w,
     times_closed (run env sched (__init__ w)) = 0) /\
  (let em := run Examples.env_bare Examples.idle_then_exit (__init__ []) in
   send_thread em = Stopped None /\
   _packets_to_send em = [] /\
   _socket em = Some {| sent := []; closed := 0 |}) /\
  (let em := run Examples.env_bare Examples.busy_then_exit
               (with_extensions [Examples.replying "p" (Some ["G1"]) None]
                  (__init__ [])) in
   send_thread em = Stopped None /\
   _packets_to_send em = ["G1"] /\
   _socket em = Some {| sent := ["G1"]; closed := 0 |}).
Proof.
  split; [|split].
  - intros Frame W Shared Dict env sched w.
    apply (run_handle_open env sched), init_handle_open.
  - vm_compute. auto.
  - vm_compute. auto.
Qed.

(** C2: an exception out of [sniff] is discarded whether or not shutdown was
    requested.  From any manager waiting in [sniff], a failure of the
    sniffer ends [_listen] as a normal return, and nothing else of the
    manager changes: the handler only tests the flag, both ways lead to the
    end of the method.  So it is with the flag still [True]. *)
Theorem listen_discards_every_error :
  (forall (Frame W : Type) (em : ExtensionManager Frame W) e,
     _listen (Failed e) (with_listen_thread (Alive L_sniff) em)
     = with_listen_thread (Stopped None) em) /\
  (let em := run Examples.env_bare [Tick_listen (Captured "F1")]
               (Examples.started []) in
   _should_continue em = true /\
   listen_thread em = Alive L_sniff /\
   _listen (Failed Examples.network_is_down) em
   = with_listen_thread (Stopped None) em).
Proof.
  split.
  - intros Frame W em e. unfold _listen. simpl.
    rewrite except_clause_stops. reflexivity.
  - vm_compute. auto.
Qed.

(** ** Dispatch of a packet and collection of the output *)

Section Dispatch.
Context {Frame W : Type}.

Local Abbreviation EM := (ExtensionManager Frame W).

Lemma for_each_app {A} (l1 l2 : list A) (body : A -> Py unit) (em : EM) :
  for_each (l1 ++ l2) body em
  = bind (for_each l1 body) (fun _ => for_each l2 body) em.
Proof.
  revert em. induction l1 as [|x l1 IH]; intros em; simpl.
  - reflexivity.
  - unfold bind. destruct (body x em) as [[[]|e] em1]; [|reflexivity].
    rewrite IH. reflexivity.
Qed.

(** Empty and [None] results add nothing to a concatenation. *)
Lemma concat_nonempty {A} (ls : list (list A)) :
  concat ls = concat (List.filter (fun l => Nat.ltb 0 (length l)) ls).
Proof.
  induction ls as [|[|a l] ls IH]; simpl; [reflexivity | exact IH |].
  by rewrite IH.
Qed.

(** What one turn of the loop of [_process_packet] does when the extension
    returns. *)
Lemma forward_packet_return pkt x (em : EM) v w1 :
  get_packet x pkt (heap em) = (Return v, w1) ->
  forward_packet pkt x em
  = (Return (),
     with_heap w1 (with_packets_to_send (_packets_to_send em ++ items v) em)).
Proof.
  intros Hx. unfold forward_packet, bind, call. rewrite Hx.
  destruct v as [[|a l]|]; simpl; unfold ret, modify; simpl;
    rewrite ?app_nil_r; by destruct em.
Qed.

Lemma forward_packet_raise pkt x (em : EM) e w1 :
  get_packet x pkt (heap em) = (Raise e, w1) ->
  forward_packet pkt x em = (Raise e, with_heap w1 em).
Proof. intros Hx. unfold forward_packet, bind, call. by rewrite Hx. Qed.

Lemma forward_all pkt exts (em : EM) vs w' :
  ingests pkt exts (heap em) vs w' ->
  (for_each exts (forward_packet pkt) em).2
  = with_heap w'
      (with_packets_to_send (_packets_to_send em ++ concat (items <$> vs)) em).
Proof.
  intros H. remember (heap em) as w eqn:Hw. revert em Hw.
  induction H as [w|x exts w v w1 vs w2 Hx _ IH|x exts w e w1 Hx];
    intros em Hw; subst w; simpl.
  - rewrite app_nil_r. by destruct em.
  - unfold bind. rewrite (forward_packet_return _ _ _ _ _ Hx).
    rewrite IH by reflexivity. unfold with_heap, with_packets_to_send. simpl.
    by rewrite app_assoc.
  - unfold bind. rewrite (forward_packet_raise _ _ _ _ _ Hx). simpl.
    rewrite app_nil_r. by destruct em.
Qed.

(** Offering a packet always comes to an end, one way or the other. *)
Lemma ingests_total pkt (exts : list (Extension Frame W)) w :
  exists vs w', ingests pkt exts w vs w'.
Proof.
  revert w. induction exts as [|x exts IH]; intros w.
  - exists [], w. constructor.
  - destruct (get_packet x pkt w) as [[v|e] w1] eqn:Hx.
    + destruct (IH w1) as (vs & w' & H). exists (v :: vs), w'.
      by eapply ingests_return.
    + exists [], w1. by eapply ingests_raise.
Qed.

(** C4: the values returned by [get_packet] for a packet, in the order of
    the registry, are appended to [_packets_to_send] one after the other,
    each once and each in its own order; [None] and the empty list add
    nothing, so what is appended is the concatenation of the non-empty
    results. *)
Theorem process_packet_appends_results pkt (em : EM) vs w' :
  ingests pkt (_extensions em) (heap em) vs w' ->
  _packets_to_send (_process_packet pkt em).2
  = _packets_to_send em ++ concat (items <$> vs) /\
  concat (items <$> vs)
  = concat (List.filter (fun l => Nat.ltb 0 (length l)) (items <$> vs)) /\
  heap (_process_packet pkt em).2 = w'.
Proof.
  intros H. unfold _process_packet, bind, gets.
  rewrite (forward_all _ _ _ _ _ H). simpl.
  split; [reflexivity|]. split; [apply concat_nonempty | reflexivity].
Qed.

(** The turns of the loop before the extension that raises. *)
Lemma forward_all_return pkt pre (em : ExtensionManager Frame W) vs w1 :
  ingests pkt pre (heap em) vs w1 ->
  length vs = length pre ->
  for_each pre (forward_packet pkt) em
  = (Return (),
     with_heap w1
       (with_packets_to_send (_packets_to_send em ++ concat (items <$> vs)) em)).
Proof.
  intros Hpre Hlen.
  pose proof (forward_all _ _ _ _ _ Hpre) as Hst.
  assert (Hret : (for_each pre (forward_packet pkt) em).1 = Return ()).
  { clear Hst. remember (heap em) as w eqn:Hw. revert em Hw.
    induction Hpre as [w|y exts w v w3 vs w4 Hy _ IH|y exts w e' w3 Hy];
      intros em Hw; subst w; simpl in *.
    - reflexivity.
    - unfold bind. rewrite (forward_packet_return _ _ _ _ _ Hy).
      apply IH; [lia | reflexivity].
    - discriminate. }
  destruct (for_each pre (forward_packet pkt) em) as [r em1].
  simpl in Hst, Hret. by subst r em1.
Qed.

Lemma dispatch_stops_at_raise pkt (em : ExtensionManager Frame W)
    pre x post vs w1 e w2 :
  _extensions em = pre ++ x :: post ->
  ingests pkt pre (heap em) vs w1 ->
  length vs = length pre ->
  get_packet x pkt w1 = (Raise e, w2) ->
  _process_packet pkt em
  = (Raise e,
     with_heap w2
       (with_packets_to_send (_packets_to_send em ++ concat (items <$> vs)) em)).
Proof.
  intros Hexts Hpre Hlen Hx.
  unfold _process_packet, bind at 1, gets. rewrite Hexts, for_each_app.
  unfold bind at 1. rewrite (forward_all_return _ _ _ _ _ Hpre Hlen).
  simpl. unfold bind.
  by rewrite (forward_packet_raise pkt x _ e w2) by exact Hx.
Qed.

(** C3, as the code has it: when [get_packet] of an extension raises on a
    packet, the extensions before it have been asked and their results
    appended, the extensions after it are not asked, whichever they are,
    and the exception leaves [_process_packet]: the method has no handler
    of its own.  What becomes of the exception, and of the packets that
    follow, is up to the sniffer that called the method. *)
Theorem get_packet_failure_aborts_dispatch pkt (em : EM) pre x post vs w1 e w2 :
  _extensions em = pre ++ x :: post ->
  ingests pkt pre (heap em) vs w1 ->
  length vs = length pre ->
  get_packet x pkt w1 = (Raise e, w2) ->
  let em' :=
    with_heap w2
      (with_packets_to_send (_packets_to_send em ++ concat (items <$> vs)) em) in
  _process_packet pkt em = (Raise e, em') /\
  forall post',
    _process_packet pkt (with_extensions (pre ++ x :: post') em)
    = (Raise e, with_extensions (pre ++ x :: post') em').
Proof.
  intros Hexts Hpre Hlen Hx em'. split.
  - by apply (dispatch_stops_at_raise pkt em pre x post vs w1 e w2).
  - intros post'.
    exact (dispatch_stops_at_raise pkt (with_extensions (pre ++ x :: post') em)
             pre x post' vs w1 e w2 eq_refl Hpre Hlen Hx).
Qed.

Lemma collect_output_return x (em : EM) output v w1 :
  send_output x (heap em) = (Return v, w1) ->
  collect_output output x em = (Return (output ++ items v), with_heap w1 em).
Proof.
  intros Hx. unfold collect_output, bind, call. rewrite Hx.
  destruct v as [[|a l]|]; simpl; unfold ret; by rewrite ?app_nil_r.
Qed.

Lemma collect_all exts (em : EM) output vs w' :
  drains exts (heap em) vs w' ->
  for_fold exts output collect_output em
  = (Return (output ++ concat (items <$> vs)), with_heap w' em).
Proof.
  intros H. remember (heap em) as w eqn:Hw. revert em output Hw.
  induction H as [w|x exts w v w1 vs w2 Hx _ IH]; intros em output Hw; subst w; simpl.
  - rewrite app_nil_r. unfold ret. by destruct em.
  - unfold bind. rewrite (collect_output_return _ _ _ _ _ Hx).
    rewrite IH by reflexivity. by rewrite app_assoc.
Qed.

(** C5, as the code has it: when every [send_output] returns, [get_output]
    returns the lines of the extensions in the order of the registry, each
    extension's lines in their own order; [None] and the empty list add
    nothing. *)
Theorem get_output_concatenates (em : EM) vs w' :
  drains (_extensions em) (heap em) vs w' ->
  (get_output em).1 = Return (concat (items <$> vs)) /\
  concat (items <$> vs)
  = concat (List.filter (fun l => Nat.ltb 0 (length l)) (items <$> vs)).
Proof.
  intros H. unfold get_output, bind, gets.
  rewrite (collect_all _ _ _ _ _ H). simpl.
  split; [reflexivity | apply concat_nonempty].
Qed.
End Dispatch.

(** ** Loading the extensions *)

Section Loading.
Context {Frame W Shared Dict : Type}.
Variable env : Env Frame W Shared Dict.

Local Abbreviation EM := (ExtensionManager Frame W).

(** An identifier that stands for no class stops the loop where it is. *)
Lemma load_extension_unresolvable sd y (em : EM) :
  constructor_of env y = None ->
  exists e,
    load_extension env sd y em = (Raise e, em) /\
    ((exn_class e = "ImportError" /\ exn_arg e = EXTENSIONS_LOADPATH env +:+ y) \/
     (exn_class e = "AttributeError" /\ exn_arg e = title y)).
Proof.
  unfold constructor_of, load_extension, import_module, getattr, bind.
  destruct (importable env !! (EXTENSIONS_LOADPATH env +:+ y)) as [m|]; simpl.
  - intros ->. eexists. split; [reflexivity|]. right. by split.
  - intros _. eexists. split; [reflexivity|]. left. by split.
Qed.

(** A constructor that raises stops it too, with its own exception. *)
Lemma load_extension_broken sd y (em : EM) cls e w2 :
  constructor_of env y = Some cls ->
  cls sd (heap em) = (Raise e, w2) ->
  load_extension env sd y em = (Raise e, with_heap w2 em).
Proof.
  unfold constructor_of, load_extension, import_module, getattr, bind, call.
  destruct (importable env !! (EXTENSIONS_LOADPATH env +:+ y)) as [m|]; simpl;
    [|discriminate].
  intros -> Hcls. simpl. by rewrite Hcls.
Qed.

(** A turn that succeeds has put one more object in the registry. *)
Lemma load_extension_return sd y (em em1 : EM) :
  load_extension env sd y em = (Return (), em1) ->
  exists obj, _extensions em1 = _extensions em ++ [obj].
Proof.
  unfold load_extension, import_module, getattr, bind, call, modify.
  destruct (importable env !! (EXTENSIONS_LOADPATH env +:+ y)) as [m|]; simpl;
    [|discriminate].
  destruct (m !! title y) as [cls|]; simpl; [|discriminate].
  destruct (cls sd (heap em)) as [[obj|e] w1]; simpl; [|discriminate].
  intros [= <-]. by exists obj.
Qed.

Lemma load_all_return sd pre (em em1 : EM) :
  for_each pre (load_extension env sd) em = (Return (), em1) ->
  exists objs, _extensions em1 = _extensions em ++ objs /\ length objs = length pre.
Proof.
  revert em. induction pre as [|y pre IH]; intros em; simpl.
  - intros [= <-]. exists []. by rewrite app_nil_r.
  - unfold bind.
    destruct (load_extension env sd y em) as [[[]|e] em2] eqn:Hy; [|discriminate].
    intros Hrest. destruct (load_extension_return _ _ _ _ Hy) as [obj Hobj].
    destruct (IH _ Hrest) as (objs & Hobjs & Hlen).
    exists (obj :: objs). split; [|simpl; by rewrite Hlen].
    rewrite Hobjs, Hobj. by rewrite <- app_assoc.
Qed.

(** A loop over a list holding an element whose turn always raises,
    raises. *)
Lemma for_each_raises {A} (l : list A) (body : A -> Py unit) y :
  (forall em : EM, exists e, (body y em).1 = Raise e) ->
  y ∈ l ->
  forall em : EM, exists e, (for_each l body em).1 = Raise e.
Proof.
  intros Hy Hin. induction Hin as [y l|y z l _ IH]; intros em; simpl; unfold bind.
  - destruct (Hy em) as [e He]. destruct (body y em) as [r em1]. simpl in He.
    subst r. by exists e.
  - destruct (body z em) as [[[]|e] em1]; [by apply IH | by exists e].
Qed.

(** C6, as the code has it: with an identifier that stands for no class
    among the configured ones, [init_extensions] raises.  When the shared
    data converts and the identifiers before it load, the exception is the
    [ImportError] of [import_module], carrying the load path followed by
    the identifier, or the [AttributeError] of [getattr], carrying the
    identifier in title case; the manager is left as the identifiers before
    it left it. *)
Theorem unresolvable_identifier_fails d (em : EM) pre y post :
  EXTENSIONS env = pre ++ y :: post ->
  constructor_of env y = None ->
  (exists e, (init_extensions env d em).1 = Raise e) /\
  (forall sd em1,
     GenericDict env d = Return sd ->
     for_each pre (load_extension env sd) em = (Return (), em1) ->
     exists e,
       init_extensions env d em = (Raise e, em1) /\
       ((exn_class e = "ImportError" /\
         exn_arg e = EXTENSIONS_LOADPATH env +:+ y) \/
        (exn_class e = "AttributeError" /\ exn_arg e = title y))).
Proof.
  intros Hexts Hy. split.
  - unfold init_extensions, bind at 1, lift.
    destruct (GenericDict env d) as [sd|e]; [|by exists e].
    assert (Hin : y ∈ EXTENSIONS env).
    { rewrite Hexts. apply elem_of_app. right. apply elem_of_cons. by left. }
    destruct (for_each_raises (EXTENSIONS env) (load_extension env sd) y) with (em := em)
      as [e He]; [|exact Hin|].
    + intros em0. destruct (load_extension_unresolvable sd y em0 Hy) as (e & -> & _).
      by exists e.
    + unfold bind. destruct (for_each _ _ em) as [r em1]. simpl in He. subst r.
      by exists e.
  - intros sd em1 Hsd Hpre.
    destruct (load_extension_unresolvable sd y em1 Hy) as (e & He & Hname).
    exists e. split; [|exact Hname].
    unfold init_extensions, bind at 1, lift. rewrite Hsd, Hexts.
    unfold bind at 1. rewrite for_each_app. unfold bind at 1. rewrite Hpre.
    simpl. unfold bind at 1. by rewrite He.
Qed.

(** C7, as the code has it: when the constructor of an extension raises,
    [init_extensions] raises that very exception and constructs nothing
    more; the extensions constructed before it stay in the registry. *)
Theorem constructor_failure_keeps_loaded d sd (em em1 : EM) pre y post cls e w2 :
  EXTENSIONS env = pre ++ y :: post ->
  GenericDict env d = Return sd ->
  for_each pre (load_extension env sd) em = (Return (), em1) ->
  constructor_of env y = Some cls ->
  cls sd (heap em1) = (Raise e, w2) ->
  init_extensions env d em = (Raise e, with_heap w2 em1) /\
  exists objs,
    _extensions (with_heap w2 em1) = _extensions em ++ objs /\
    length objs = length pre.
Proof.
  intros Hexts Hsd Hpre Hy Hcls. split.
  - unfold init_extensions, bind at 1, lift. rewrite Hsd, Hexts.
    unfold bind at 1. rewrite for_each_app. unfold bind at 1. rewrite Hpre.
    simpl. unfold bind at 1.
    by rewrite (load_extension_broken sd y em1 cls e w2 Hy Hcls).
  - exact (load_all_return _ _ _ _ Hpre).
Qed.
End Loading.

(** ** Shutdown *)

(** C8, as the code has it: [on_exit] takes no timeout; it clears the flag,
    joins each daemon with a bound of five seconds, and returns [None]
    whether the daemons are over or not; joining a daemon that was never
    started raises [RuntimeError]. *)
Theorem on_exit_returns_none {Frame W} (em : ExtensionManager Frame W) :
  (on_exit em).2 = with_should_continue false em /\
  (on_exit em).1
  = match listen_thread em, send_thread em with
    | Initial, _ | _, Initial =>
        Raise (Exn "RuntimeError" "cannot join thread before it is started")
    | _, _ => Return VNone
    end.
Proof.
  split; [apply on_exit_writes|].
  unfold on_exit, bind, modify, gets, lift, ret, join. simpl.
  destruct (listen_thread em), (send_thread em); reflexivity.
Qed.

(** ** The properties on concrete managers *)

Section Concrete.
Import Examples.

(** C3 fails as stated: with a registry whose first extension raises,
    [_process_packet] raises in its turn and the second extension is never
    asked: it writes nothing in the journal and nothing is queued, while it
    would have queued a frame. *)
Lemma get_packet_failure_not_isolated :
  let r := _process_packet "F1" (started bad_then_good) in
  r.1 = Raise bad_frame /\
  heap r.2 = ["bad"] /\
  ~ In "good" (heap r.2) /\
  _packets_to_send r.2 = [] /\
  (get_packet (replying "good" (Some ["G"]) None) "F1" ["bad"]).1
  = Return (Some ["G"]).
Proof.
  vm_compute. repeat split.
  intros [H|[]]. discriminate H.
Qed.

Lemma get_packet_failure_aborts_dispatch_witness :
  let em := started bad_in_the_middle in
  let em' := with_heap ["first"; "bad"] (with_packets_to_send ["G1"] em) in
  ingests "F1" [replying "first" (Some ["G1"]) None] (heap em)
    [Some ["G1"]] ["first"] /\
  get_packet (failing "bad" bad_frame) "F1" ["first"]
  = (Raise bad_frame, ["first"; "bad"]) /\
  _process_packet "F1" em = (Raise bad_frame, em') /\
  _process_packet "F1"
    (with_extensions
       [replying "first" (Some ["G1"]) None; failing "bad" bad_frame] em)
  = (Raise bad_frame,
     with_extensions
       [replying "first" (Some ["G1"]) None; failing "bad" bad_frame] em').
Proof.
  intros em em'.
  assert (Hpre : ingests "F1" [replying "first" (Some ["G1"]) None] (heap em)
                   [Some ["G1"]] ["first"]).
  { eapply ingests_return; [reflexivity | constructor]. }
  destruct (get_packet_failure_aborts_dispatch "F1" em
              [replying "first" (Some ["G1"]) None]
              (failing "bad" bad_frame)
              [replying "last" (Some ["G2"]) None]
              [Some ["G1"]] ["first"] bad_frame ["first"; "bad"]
              eq_refl Hpre eq_refl eq_refl) as [Hpp Hany].
  split; [exact Hpre|]. split; [reflexivity|]. split; [exact Hpp|].
  exact (Hany []).
Defined.

Lemma process_packet_appends_results_witness :
  let em := started mixed_repliers in
  ingests "F1" (_extensions em) (heap em)
    [Some ["G1"; "G2"]; None; Some []; Some ["G3"]] ["A"; "B"; "C"; "D"] /\
  _packets_to_send (_process_packet "F1" em).2 = ["G1"; "G2"; "G3"].
Proof.
  intros em.
  assert (H : ingests "F1" (_extensions em) (heap em)
                [Some ["G1"; "G2"]; None; Some []; Some ["G3"]]
                ["A"; "B"; "C"; "D"]).
  { repeat (eapply ingests_return; [reflexivity|]). constructor. }
  split; [exact H|].
  exact (proj1 (process_packet_appends_results "F1" em _ _ H)).
Defined.

Lemma get_output_concatenates_witness :
  let em := started loggers in
  drains (_extensions em) (heap em) [Some ["a1"; "a2"]; Some []] [] /\
  (get_output em).1 = Return ["a1"; "a2"].
Proof.
  intros em.
  assert (H : drains (_extensions em) (heap em) [Some ["a1"; "a2"]; Some []] []).
  { repeat (eapply drains_return; [reflexivity|]). constructor. }
  split; [exact H|].
  exact (proj1 (get_output_concatenates em _ _ H)).
Defined.

(** C5 fails as stated: not every registry gets its lines back.  With an
    extension whose [send_output] raises between two that have lines to
    report, [get_output] raises and returns no list at all. *)
Lemma get_output_returns_nothing_on_failure :
  let r := get_output (started mute_in_the_middle) in
  r.1 = Raise log_unavailable /\
  (forall lines, r.1 <> Return lines) /\
  (send_output (replying "A" None (Some ["a1"; "a2"])) []).1
  = Return (Some ["a1"; "a2"]) /\
  (send_output (replying "B" None (Some ["b1"])) []).1 = Return (Some ["b1"]).
Proof.
  vm_compute. repeat split. intros lines H. discriminate H.
Qed.

(** C6 fails as stated: the exception is the one of [import_module] or of
    [getattr], not a [PluginLoadError]. *)
Lemma unresolvable_identifier_not_plugin_load_error :
  (init_extensions env_y_missing () (__init__ [])).1
  = Raise (Exn "ImportError" "wifiphisher.extensions.y") /\
  (init_extensions env_y_classless () (__init__ [])).1
  = Raise (Exn "AttributeError" "Y") /\
  exn_class (Exn "ImportError" "wifiphisher.extensions.y") <> "PluginLoadError" /\
  exn_class (Exn "AttributeError" "Y") <> "PluginLoadError".
Proof. vm_compute. repeat split; discriminate. Qed.

Lemma unresolvable_identifier_fails_witness :
  let em1 := (for_each ["x"] (load_extension env_y_missing ()) (__init__ [])).2 in
  EXTENSIONS env_y_missing = ["x"] ++ "y" :: [] /\
  constructor_of env_y_missing "y" = None /\
  (exists e, (init_extensions env_y_missing () (__init__ [])).1 = Raise e) /\
  (exists e,
     init_extensions env_y_missing () (__init__ []) = (Raise e, em1) /\
     ((exn_class e = "ImportError" /\ exn_arg e = loadpath +:+ "y") \/
      (exn_class e = "AttributeError" /\ exn_arg e = title "y"))).
Proof.
  intros em1.
  assert (Hy : constructor_of env_y_missing "y" = None) by (vm_compute; reflexivity).
  destruct (unresolvable_identifier_fails env_y_missing () (__init__ [])
              ["x"] "y" [] eq_refl Hy) as [Hfails Hnames].
  split; [reflexivity|]. split; [exact Hy|]. split; [exact Hfails|].
  apply (Hnames () em1); [reflexivity | vm_compute; reflexivity].
Defined.

(** C7 fails as stated: the exception of the constructor goes up as it is,
    not as a [PluginInitError], and the extension constructed before it is
    in the registry afterwards. *)
Lemma constructor_failure_exposes_partial_registry :
  let r := init_extensions env_y_broken () (__init__ []) in
  r.1 = Raise (Exn "IOError" "resource unavailable") /\
  exn_class (Exn "IOError" "resource unavailable") <> "PluginInitError" /\
  length (_extensions r.2) = 1 /\
  _extensions r.2 <> _extensions (@__init__ string journal []).
Proof.
  vm_compute. repeat split; try discriminate.
Qed.

Lemma constructor_failure_keeps_loaded_witness :
  let em1 := (for_each ["x"] (load_extension env_y_broken ()) (__init__ [])).2 in
  EXTENSIONS env_y_broken = ["x"] ++ "y" :: [] /\
  constructor_of env_y_broken "y" = Some (broken_class resource_unavailable) /\
  init_extensions env_y_broken () (__init__ [])
  = (Raise resource_unavailable, with_heap [] em1) /\
  exists objs,
    _extensions (with_heap [] em1) = [] ++ objs /\ length objs = 1.
Proof.
  intros em1.
  assert (Hy : constructor_of env_y_broken "y"
               = Some (broken_class resource_unavailable))
    by (vm_compute; reflexivity).
  assert (Hpre : for_each ["x"] (load_extension env_y_broken ()) (__init__ [])
                 = (Return (), em1)) by (vm_compute; reflexivity).
  split; [reflexivity|]. split; [exact Hy|].
  exact (constructor_failure_keeps_loaded env_y_broken () () (__init__ []) em1
           ["x"] "y" [] (broken_class resource_unavailable)
           resource_unavailable [] eq_refl eq_refl Hpre Hy eq_refl).
Defined.

(** C8 fails as stated: [on_exit] returns [None] when [_listen] is still
    waiting in [sniff], as it does when both daemons are over. *)
Lemma on_exit_reports_no_straggler :
  let stuck := run env_bare exit_while_sniffing (started []) in
  let over := run env_bare exit_between_sniffs (started []) in
  still_running (on_exit stuck).2 = ["listen_thread"] /\
  (on_exit stuck).1 = Return VNone /\
  still_running (on_exit over).2 = [] /\
  (on_exit over).1 = Return VNone.
Proof. vm_compute. repeat split. Qed.
End Concrete.

(** * Further properties of the manager *)

Section Lifecycle.
Context {Frame W Shared Dict : Type}.
Variable env : Env Frame W Shared Dict.

Local Abbreviation EM := (ExtensionManager Frame W).

#[local] Instance more_flag_kept_preorder : PreOrder (@flag_kept Frame W).
Proof.
  split; [intros em; reflexivity|].
  intros a b c Hab Hbc. unfold flag_kept in *. congruence.
Qed.

#[local] Instance more_sender_kept_preorder : PreOrder (@sender_kept Frame W).
Proof.
  split; [intros em; by split|].
  intros a b c [? ?] [? ?]. split; congruence.
Qed.

#[local] Instance more_queue_grows_preorder : PreOrder (@queue_grows Frame W).
Proof.
  split.
  - intros em. unfold queue_grows. reflexivity.
  - intros a b c Hab Hbc. unfold queue_grows in *. by etrans.
Qed.

#[local] Instance registry_grows_preorder : PreOrder (@registry_grows Frame W).
Proof.
  split.
  - intros em. unfold registry_grows. reflexivity.
  - intros a b c Hab Hbc. unfold registry_grows in *. by etrans.
Qed.

#[local] Instance listener_kept_preorder : PreOrder (@listener_kept Frame W).
Proof.
  split; [intros em; reflexivity|].
  intros a b c Hab Hbc. unfold listener_kept in *. congruence.
Qed.

#[local] Instance sender_thread_kept_preorder :
  PreOrder (@sender_thread_kept Frame W).
Proof.
  split; [intros em; reflexivity|].
  intros a b c Hab Hbc. unfold sender_thread_kept in *. congruence.
Qed.

#[local] Instance queue_kept_preorder : PreOrder (@queue_kept Frame W).
Proof.
  split; [intros em; reflexivity|].
  intros a b c Hab Hbc. unfold queue_kept in *. congruence.
Qed.

#[local] Instance traffic_kept_preorder : PreOrder (@traffic_kept Frame W).
Proof.
  split.
  - intros em. split; reflexivity.
  - intros a b c [Hs1 Hq1] [Hs2 Hq2]. split; [congruence | by etrans].
Qed.

#[local] Instance heap_only_preorder : PreOrder (@heap_only Frame W).
Proof.
  split.
  - intros em. exists (heap em). by destruct em.
  - intros a b c [w1 ->] [w2 ->]. by exists w2.
Qed.

Lemma run_app sched1 sched2 (em : EM) :
  run env (sched1 ++ sched2) em = run env sched2 (run env sched1 em).
Proof. unfold run. apply foldl_app. Qed.

(** *** The registry *)

Lemma step_registry (em : EM) a : registry_grows em (step env em a).
Proof.
  destruct (is_on_exit a) eqn:Ha.
  - destruct a; try discriminate. simpl. rewrite on_exit_writes.
    unfold registry_grows. reflexivity.
  - apply (step_respects env registry_grows); auto; intros;
      unfold registry_grows; simpl; try reflexivity.
    by apply prefix_app_r.
Qed.

(** X1: no call and no daemon ever removes, replaces or reorders an
    extension of the registry: after any run the registry is the registry
    before, followed by what [init_extensions] appended. *)
Theorem registry_only_grows sched (em : EM) :
  exists added, _extensions (run env sched em) = _extensions em ++ added.
Proof.
  unfold run. revert em. induction sched as [|a sched IH]; intros em; simpl.
  - exists []. by rewrite app_nil_r.
  - destruct (IH (step env em a)) as [k2 ->].
    destruct (step_registry em a) as [k1 ->].
    exists (k1 ++ k2). by rewrite app_assoc.
Qed.

(** *** The daemons run once *)

Lemma step_send_stopped (em : EM) a u :
  send_thread em = Stopped u -> send_thread (step env em a) = Stopped u.
Proof.
  intros H. destruct a; simpl.
  - rewrite <- H. apply (set_interface_respects sender_thread_kept);
      intros; exact eq_refl.
  - rewrite <- H. apply (init_extensions_respects env sender_thread_kept);
      intros; exact eq_refl.
  - unfold start_extensions, bind, modify, gets, lift, ret, start.
    destruct (listen_thread em); simpl; rewrite ?H; simpl; rewrite ?H;
      reflexivity.
  - rewrite on_exit_writes. exact H.
  - rewrite <- H. apply (get_output_respects sender_thread_kept);
      intros; exact eq_refl.
  - rewrite <- H. apply (_listen_respects sender_thread_kept);
      intros; exact eq_refl.
  - unfold _send. rewrite H. exact H.
Qed.

Lemma step_listen_stopped (em : EM) a u :
  listen_thread em = Stopped u -> listen_thread (step env em a) = Stopped u.
Proof.
  intros H. destruct a; simpl.
  - rewrite <- H. apply (set_interface_respects listener_kept);
      intros; exact eq_refl.
  - rewrite <- H. apply (init_extensions_respects env listener_kept);
      intros; exact eq_refl.
  - unfold start_extensions, bind, modify, gets, lift, ret, start.
    rewrite H. simpl. rewrite ?H. reflexivity.
  - rewrite on_exit_writes. exact H.
  - rewrite <- H. apply (get_output_respects listener_kept);
      intros; exact eq_refl.
  - unfold _listen. rewrite H. exact H.
  - rewrite <- H. apply (_send_respects listener_kept);
      intros; exact eq_refl.
Qed.

(** X2: a daemon that has come to its end stays there: whatever is called
    afterwards, [start_extensions] included, neither [_send] nor [_listen]
    runs a second time. *)
Theorem daemons_never_restart sched (em : EM) u :
  send_thread (run env sched (with_send_thread (Stopped u) em)) = Stopped u /\
  listen_thread (run env sched (with_listen_thread (Stopped u) em)) = Stopped u.
Proof.
  assert (Hs : forall sched (em : EM),
             send_thread em = Stopped u ->
             send_thread (run env sched em) = Stopped u).
  { unfold run. intros s. induction s as [|a s IH]; intros em0 H; simpl.
    - exact H.
    - apply IH. by apply step_send_stopped. }
  assert (Hl : forall sched (em : EM),
             listen_thread em = Stopped u ->
             listen_thread (run env sched em) = Stopped u).
  { unfold run. intros s. induction s as [|a s IH]; intros em0 H; simpl.
    - exact H.
    - apply IH. by apply step_listen_stopped. }
  split; [apply Hs | apply Hl]; reflexivity.
Qed.

(** X3: a second [start_extensions] raises [RuntimeError] and changes
    nothing, whatever the first one did; on a manager whose daemons were
    never started, the first one returns [None] with both daemons at the
    head of their loops. *)
Theorem start_extensions_only_once (em : EM) :
  start_extensions (start_extensions em).2
  = (Raise (Exn "RuntimeError" "threads can only be started once"),
     (start_extensions em).2) /\
  start_extensions (with_listen_thread Initial (with_send_thread Initial em))
  = (Return VNone,
     with_send_thread (Alive S_while_outer)
       (with_listen_thread (Alive L_while) em)).
Proof.
  split.
  - unfold start_extensions, bind, modify, gets, lift, ret, start.
    destruct (listen_thread em) eqn:Hl, (send_thread em) eqn:Hs; simpl;
      rewrite ?Hl, ?Hs; reflexivity.
  - by destruct em.
Qed.

(** X4: [on_exit] is idempotent: called again, it gives the same result and
    leaves the manager as the first call left it. *)
Theorem on_exit_idempotent (em : EM) :
  on_exit (on_exit em).2 = on_exit em.
Proof.
  rewrite on_exit_writes.
  unfold on_exit, bind, modify, gets, lift, ret, join. simpl.
  destruct (listen_thread em), (send_thread em); reflexivity.
Qed.

(** *** After shutdown *)

(** With the flag cleared, a statement of [_listen] leaves it outside
    [sniff]. *)
Lemma _listen_leaves_sniff ev (em : EM) :
  _should_continue em = false ->
  _should_continue (_listen ev em) = false /\
  (listen_thread em <> Initial -> listen_thread (_listen ev em) <> Initial) /\
  listen_thread (_listen ev em) <> Alive L_sniff.
Proof.
  intros Hflag. split.
  - rewrite <- Hflag. apply (_listen_respects flag_kept); intros; exact eq_refl.
  - unfold _listen. destruct (listen_thread em) as [|[]|] eqn:Hl.
    + split; [done | by rewrite Hl].
    + rewrite Hflag. split; simpl; congruence.
    + destruct (sniff ev _process_packet _stopfilter em) as [[?|?] em1];
        rewrite ?except_clause_stops; split; simpl; congruence.
    + split; [congruence | by rewrite Hl].
Qed.

Lemma _listen_stops_outside_sniff ev (em : EM) :
  _should_continue em = false ->
  listen_thread em <> Alive L_sniff ->
  is_alive (listen_thread (_listen ev em)) = false.
Proof.
  intros Hflag Hl. unfold _listen.
  destruct (listen_thread em) as [|[]|] eqn:Ht; rewrite ?Ht; try reflexivity.
  - by rewrite Hflag.
  - congruence.
Qed.

(** X5: once the flag is cleared, [_listen] is over after two of its
    statements at most: the return of the pending [sniff], if it is in one,
    and the test of the loop. *)
Theorem listen_stops_after_shutdown ev1 ev2 (em : EM) :
  _should_continue em = false ->
  is_alive (listen_thread (_listen ev2 (_listen ev1 em))) = false.
Proof.
  intros Hflag.
  destruct (_listen_leaves_sniff ev1 em Hflag) as (Hflag1 & _ & Hl1).
  by apply _listen_stops_outside_sniff.
Qed.

Lemma step_queue_frozen (em : EM) a :
  _should_continue em = false ->
  listen_thread em <> Alive L_sniff ->
  _should_continue (step env em a) = false /\
  listen_thread (step env em a) <> Alive L_sniff /\
  _packets_to_send (step env em a) = _packets_to_send em.
Proof.
  intros Hflag Hl. split; [by rewrite step_flag, Hflag|].
  assert (Hkept : forall em' : EM,
            listener_kept em em' -> queue_kept em em' ->
            listen_thread em' <> Alive L_sniff /\
            _packets_to_send em' = _packets_to_send em).
  { intros em' Hk Hq. unfold listener_kept, queue_kept in *.
    rewrite Hk. by split. }
  destruct a; simpl.
  - apply Hkept.
    + apply (set_interface_respects listener_kept); intros; exact eq_refl.
    + apply (set_interface_respects queue_kept); intros; exact eq_refl.
  - apply Hkept.
    + apply (init_extensions_respects env listener_kept); intros; exact eq_refl.
    + apply (init_extensions_respects env queue_kept); intros; exact eq_refl.
  - split.
    + unfold start_extensions, bind, modify, gets, lift, ret, start.
      destruct (listen_thread em) eqn:Ht; simpl; rewrite ?Ht; try congruence.
      destruct (send_thread em); simpl; congruence.
    + apply (start_extensions_respects queue_kept); intros; exact eq_refl.
  - rewrite on_exit_writes. by split.
  - apply Hkept.
    + apply (get_output_respects listener_kept); intros; exact eq_refl.
    + apply (get_output_respects queue_kept); intros; exact eq_refl.
  - split.
    + apply (_listen_leaves_sniff ev em Hflag).
    + unfold _listen. destruct (listen_thread em) as [|[]|]; try reflexivity.
      * by rewrite Hflag.
      * congruence.
  - apply Hkept.
    + apply (_send_respects listener_kept); intros; exact eq_refl.
    + apply (_send_respects queue_kept); intros; exact eq_refl.
Qed.

Lemma run_queue_frozen sched (em : EM) :
  _should_continue em = false ->
  listen_thread em <> Alive L_sniff ->
  _packets_to_send (run env sched em) = _packets_to_send em.
Proof.
  unfold run. revert em. induction sched as [|a sched IH]; intros em Hflag Hl.
  - reflexivity.
  - simpl. destruct (step_queue_frozen em a Hflag Hl) as (Hf & Hl' & Hq).
    rewrite IH by assumption. exact Hq.
Qed.

(** X6: after shutdown at most one more packet is dispatched.  With the
    flag cleared and [_listen] not waiting in [sniff], no run ever changes
    the outbound list; and if it is waiting in [sniff], nothing changes the
    list any more once that [sniff] has returned. *)
Theorem no_dispatch_after_shutdown (em : EM) :
  _should_continue em = false ->
  (listen_thread em <> Alive L_sniff ->
   forall sched, _packets_to_send (run env sched em) = _packets_to_send em) /\
  (forall ev sched,
     _packets_to_send (run env sched (_listen ev em))
     = _packets_to_send (_listen ev em)).
Proof.
  intros Hflag. split.
  - intros Hl sched. by apply run_queue_frozen.
  - intros ev sched.
    destruct (_listen_leaves_sniff ev em Hflag) as (Hflag1 & _ & Hl1).
    by apply run_queue_frozen.
Qed.

(** Each statement of [_send] uses up its fuel when the flag is cleared. *)
Lemma _send_burns_fuel fault (em : EM) :
  _should_continue em = false ->
  _should_continue (_send fault em) = false /\
  _packets_to_send (_send fault em) = _packets_to_send em /\
  send_fuel (_send fault em) <= send_fuel em - 1.
Proof.
  intros Hflag.
  split; [rewrite <- Hflag; apply (_send_respects flag_kept); intros; exact eq_refl|].
  split; [apply (_send_respects queue_kept); intros; exact eq_refl|].
  unfold _send, send_fuel.
  destruct (send_thread em) as [|[]|] eqn:Ht; rewrite ?Ht; try (simpl; lia).
  - rewrite Hflag. simpl. lia.
  - destruct (Nat.ltb _ _); simpl; lia.
  - rewrite Hflag. simpl. lia.
  - destruct (_packets_to_send em !! i) as [pkt|] eqn:Hi.
    + apply lookup_lt_Some in Hi.
      unfold socket_send, bind, gets, modify, raise. simpl.
      destruct (_socket em) as [sock|]; [destruct fault|]; simpl;
        rewrite ?except_clause_stops; simpl; lia.
    + simpl. lia.
  - simpl. rewrite except_clause_stops. simpl. lia.
  - unfold socket_close, bind, gets, modify, raise. simpl.
    destruct (_socket em) as [sock|]; simpl;
      rewrite ?except_clause_stops; simpl; lia.
Qed.

Lemma send_fuel_bound (em : EM) : send_fuel em <= length (_packets_to_send em) + 4.
Proof. unfold send_fuel. destruct (send_thread em) as [|[]|]; lia. Qed.

Lemma send_fuel_spent (em : EM) : send_fuel em = 0 -> is_alive (send_thread em) = false.
Proof.
  unfold send_fuel. destruct (send_thread em) as [|[]|]; simpl; try done; lia.
Qed.

(** X7: once the flag is cleared, [_send] comes to its end by itself: if no
    other thread steps in, it is over after as many statements as there
    are frames in the list plus four, whether its sends succeed or fail. *)
Theorem send_stops_after_shutdown faults (em : EM) :
  _should_continue em = false ->
  length (_packets_to_send em) + 4 <= length faults ->
  is_alive (send_thread (run env (Tick_send <$> faults) em)) = false.
Proof.
  intros Hflag Hlen. apply send_fuel_spent.
  assert (H : forall faults (em : EM),
             _should_continue em = false ->
             send_fuel (run env (Tick_send <$> faults) em)
             <= send_fuel em - length faults).
  { clear. unfold run. intros faults.
    induction faults as [|f faults IH]; intros em Hflag; simpl.
    - lia.
    - destruct (_send_burns_fuel f em Hflag) as (Hflag1 & _ & Hfuel).
      eapply Nat.le_trans; [exact (IH _ Hflag1) | lia]. }
  specialize (H faults em Hflag). pose proof (send_fuel_bound em). lia.
Qed.

(** *** Before shutdown *)

Lemma step_sender_at_work (em : EM) a :
  calm a = true -> sender_at_work em -> sender_at_work (step env em a).
Proof.
  intros Ha (Hflag & Hsock & Hpc).
  assert (Hkept : forall em' : EM,
            flag_kept em em' -> sender_kept em em' -> sender_at_work em').
  { intros em' Hf [Hs Ht]. unfold sender_at_work, flag_kept in *.
    by rewrite Hf, Hs, Ht. }
  destruct a; simpl; try discriminate.
  - unfold set_interface, open_socket, bind, modify, ret, raise.
    destruct fault; (split; [exact Hflag | split; [simpl; congruence | exact Hpc]]).
  - apply Hkept.
    + apply (init_extensions_respects env flag_kept); intros; exact eq_refl.
    + apply (init_extensions_respects env sender_kept); intros; by split.
  - unfold start_extensions, bind, modify, gets, lift, ret, start.
    destruct (send_thread em) as [|pc|] eqn:Ht; try done.
    destruct (listen_thread em); simpl; rewrite ?Ht; simpl;
      (split; [exact Hflag | split; [exact Hsock | simpl; by rewrite Ht]]).
  - apply Hkept.
    + apply (get_output_respects flag_kept); intros; exact eq_refl.
    + apply (get_output_respects sender_kept); intros; by split.
  - apply Hkept.
    + apply (_listen_respects flag_kept); intros; exact eq_refl.
    + apply (_listen_respects sender_kept); intros; by split.
  - destruct fault; [discriminate|]. unfold _send.
    destruct (send_thread em) as [|[]|] eqn:Ht; try done.
    + rewrite Hflag. by repeat split.
    + destruct (Nat.ltb _ _); by repeat split.
    + rewrite Hflag. by repeat split.
    + destruct (_packets_to_send em !! i) as [pkt|]; [|by repeat split].
      unfold socket_send, bind, gets, modify, raise. simpl.
      destruct (_socket em) as [sock|]; [|done]. simpl. by repeat split.
Qed.

(** X8: [_send] ends only on shutdown or on a failing send.  While the flag
    is set and the manager has a socket, no run without a call of [on_exit]
    and without a failing send takes [_send] out of its loops: it never
    gets to the statements after them. *)
Theorem send_runs_until_shutdown sched (em : EM) :
  forallb calm sched = true ->
  sender_at_work em ->
  sender_at_work (run env sched em).
Proof.
  unfold run. revert em. induction sched as [|a sched IH]; intros em Hs Hw.
  - exact Hw.
  - simpl in *. apply andb_true_iff in Hs as [Ha Hs].
    apply IH; [exact Hs|]. by apply step_sender_at_work.
Qed.

(** *** What goes through the socket *)

Lemma only_queued_traffic_kept (em em' : EM) :
  traffic_kept em em' -> only_queued em -> only_queued em'.
Proof.
  intros [Hs [k Hq]] H sock pkt Hsock Hin. rewrite Hq. apply elem_of_app. left.
  apply (H sock); [by rewrite <- Hs | exact Hin].
Qed.

Lemma _send_only_queued fault (em : EM) :
  only_queued em -> only_queued (_send fault em).
Proof.
  intros H. unfold _send.
  destruct (send_thread em) as [|[]|]; try exact H.
  - by destruct (_should_continue em).
  - by destruct (Nat.ltb _ _).
  - by destruct (_should_continue em).
  - destruct (_packets_to_send em !! i) as [pkt|] eqn:Hi; [|exact H].
    unfold socket_send, bind, gets, modify, raise. simpl.
    destruct (_socket em) as [sock|] eqn:Hs; [destruct fault|]; simpl.
    + intros sock' pkt' Hs' Hin. simpl in *. apply (H sock'); [congruence | exact Hin].
    + intros sock' pkt' [= <-] Hin. simpl in *.
      apply elem_of_app in Hin as [Hin|Hin].
      * by apply (H sock).
      * apply list_elem_of_singleton in Hin as ->.
        by eapply list_elem_of_lookup_2.
    + intros sock' pkt' Hs' Hin. simpl in *. congruence.
  - unfold socket_close, bind, gets, modify, raise. simpl.
    destruct (_socket em) as [sock|] eqn:Hs; simpl.
    + intros sock' pkt' [= <-] Hin. simpl in *. by apply (H sock).
    + intros sock' pkt' Hs' Hin. simpl in *. congruence.
Qed.

Lemma step_only_queued (em : EM) a :
  only_queued em -> only_queued (step env em a).
Proof.
  intros H. destruct a; simpl.
  - unfold set_interface, open_socket, bind, modify, ret, raise.
    destruct fault; simpl; [exact H|].
    intros sock pkt [= <-] Hin. simpl in Hin. by apply elem_of_nil in Hin.
  - apply (only_queued_traffic_kept em); [|exact H].
    apply (init_extensions_respects env traffic_kept); intros; by split.
  - apply (only_queued_traffic_kept em); [|exact H].
    apply (start_extensions_respects traffic_kept); intros; by split.
  - rewrite on_exit_writes. exact H.
  - apply (only_queued_traffic_kept em); [|exact H].
    apply (get_output_respects traffic_kept); intros; by split.
  - apply (only_queued_traffic_kept em); [|exact H].
    apply (_listen_respects traffic_kept); intros;
      (split; [reflexivity | simpl; try reflexivity; by apply prefix_app_r]).
  - by apply _send_only_queued.
Qed.

(** X9: the manager only transmits what its extensions produced: in every
    run, from a fresh manager, each frame that went through the socket is
    in [_packets_to_send]. *)
Theorem only_queued_frames_are_sent sched (w : W) :
  only_queued (run env sched (__init__ w)).
Proof.
  assert (H : forall sched (em : EM), only_queued em -> only_queued (run env sched em)).
  { unfold run. intros s. induction s as [|a s IH]; intros em H; simpl.
    - exact H.
    - apply IH. by apply step_only_queued. }
  apply H. intros sock pkt Hs. discriminate Hs.
Qed.

(** *** A pass over the outbound list *)

Lemma send_pass_from k : forall (em : EM) sock i,
  _socket em = Some sock ->
  send_thread em = Alive (S_for i) ->
  i + k <= length (_packets_to_send em) ->
  run env (replicate k (Tick_send None)) em
  = with_send_thread (Alive (S_for (i + k)))
      (with_socket
         (Some {| sent := sent sock ++ take k (drop i (_packets_to_send em));
                  closed := closed sock |}) em).
Proof.
  induction k as [|k IH]; intros em sock i Hs Ht Hlen.
  - destruct em, sock. simpl in *. subst.
    unfold run, with_send_thread, with_socket. simpl.
    by rewrite Nat.add_0_r, app_nil_r.
  - destruct (lookup_lt_is_Some_2 (_packets_to_send em) i) as [pkt Hpkt]; [lia|].
    change (run env (replicate (S k) (Tick_send None)) em)
      with (run env (replicate k (Tick_send None)) (_send None em)).
    assert (Hstep : _send None em
                    = with_send_thread (Alive (S_for (S i)))
                        (with_socket
                           (Some {| sent := sent sock ++ [pkt];
                                    closed := closed sock |}) em)).
    { unfold _send. rewrite Ht, Hpkt.
      unfold socket_send, bind, gets, modify. simpl. by rewrite Hs. }
    rewrite Hstep.
    rewrite (IH _ {| sent := sent sock ++ [pkt]; closed := closed sock |} (S i));
      [|reflexivity|reflexivity|simpl; lia].
    unfold with_send_thread, with_socket. simpl.
    rewrite (drop_S _ _ _ Hpkt). simpl.
    rewrite <- app_assoc. simpl. by rewrite Nat.add_succ_r.
Qed.

(** X10: a pass of the [for] loop sends the frames of the list in their
    order, from the one the iterator is at to the last, without looking
    at the flag: if no send fails and the list does not grow meanwhile,
    [_send] reaches the end of the list and the socket has sent exactly
    these frames, one after the other. *)
Theorem send_pass_in_order (em : EM) sock i :
  _socket em = Some sock ->
  send_thread em = Alive (S_for i) ->
  i <= length (_packets_to_send em) ->
  run env (replicate (length (_packets_to_send em) - i) (Tick_send None)) em
  = with_send_thread (Alive (S_for (length (_packets_to_send em))))
      (with_socket
         (Some {| sent := sent sock ++ drop i (_packets_to_send em);
                  closed := closed sock |}) em).
Proof.
  intros Hs Ht Hi.
  rewrite (send_pass_from _ em sock i Hs Ht) by lia.
  rewrite take_ge by (rewrite length_drop; lia).
  by replace (i + (length (_packets_to_send em) - i))
    with (length (_packets_to_send em)) by lia.
Qed.

(** X11: while the flag is set [_send] sends the whole list again and
    again: [n] turns of the inner [while], each a pass over the list and
    the two loop tests, send the list [n] times, nothing being removed
    from it. *)
Theorem send_repeats_the_queue n : forall (em : EM) sock,
  _should_continue em = true ->
  _socket em = Some sock ->
  send_thread em = Alive (S_for 0) ->
  run env
    (concat (replicate n
       (replicate (length (_packets_to_send em)) (Tick_send None)
        ++ [Tick_send None; Tick_send None]))) em
  = with_socket
      (Some {| sent := sent sock ++ concat (replicate n (_packets_to_send em));
               closed := closed sock |}) em.
Proof.
  induction n as [|n IH]; intros em sock Hflag Hs Ht.
  - destruct em, sock. simpl in *. subst. unfold run, with_socket. simpl.
    by rewrite app_nil_r.
  - simpl. rewrite !run_app.
    pose proof (send_pass_from (length (_packets_to_send em)) em sock 0 Hs Ht
                  ltac:(lia)) as Hpass.
    rewrite drop_0, firstn_all in Hpass. simpl in Hpass. rewrite Hpass.
    set (sock1 := {| sent := sent sock ++ _packets_to_send em;
                     closed := closed sock |}).
    assert (Hturn :
      run env [Tick_send None; Tick_send None]
        (with_send_thread (Alive (S_for (length (_packets_to_send em))))
           (with_socket (Some sock1) em))
      = with_socket (Some sock1) em).
    { unfold run. simpl. unfold _send at 2. simpl.
      rewrite (lookup_ge_None_2 (_packets_to_send em)) by lia.
      unfold _send. simpl. rewrite Hflag.
      destruct em. simpl in *. subst. reflexivity. }
    rewrite Hturn.
    pose proof (IH (with_socket (Some sock1) em) sock1 Hflag eq_refl Ht) as Hrest.
    change (_packets_to_send (with_socket (Some sock1) em))
      with (_packets_to_send em) in Hrest.
    rewrite Hrest. unfold with_socket, sock1. simpl. by rewrite <- app_assoc.
Qed.

(** *** Collecting the output *)

(** X12: [get_output] can be called at any time: it changes nothing of the
    manager, only the extensions' own world; flag, lists, socket and
    threads are as before, whether it returns or raises. *)
Theorem get_output_reads_only (em : EM) :
  exists w, (get_output em).2 = with_heap w em.
Proof.
  apply (get_output_respects heap_only). intros w em0. by exists w.
Qed.

Lemma for_fold_app {A B} (l1 l2 : list A) (acc : B) (body : B -> A -> Py B)
    (em : EM) :
  for_fold (l1 ++ l2) acc body em
  = bind (for_fold l1 acc body) (fun acc' => for_fold l2 acc' body) em.
Proof.
  revert acc em. induction l1 as [|x l1 IH]; intros acc em; simpl.
  - reflexivity.
  - unfold bind. destruct (body acc x em) as [[acc'|e] em1]; [|reflexivity].
    rewrite IH. reflexivity.
Qed.

(** X13: one extension whose [send_output] raises hides the output of all:
    [get_output] raises that exception, the lines collected from the
    extensions before it are dropped, and the extensions after it are not
    asked. *)
Theorem get_output_failure_loses_output (em : EM) pre x post vs w1 e w2 :
  _extensions em = pre ++ x :: post ->
  drains pre (heap em) vs w1 ->
  send_output x w1 = (Raise e, w2) ->
  get_output em = (Raise e, with_heap w2 em).
Proof.
  intros Hexts Hpre Hx. unfold get_output, bind at 1, gets.
  rewrite Hexts, for_fold_app. unfold bind at 1.
  rewrite (collect_all _ _ [] _ _ Hpre). simpl.
  unfold bind, collect_output, bind, call. simpl. by rewrite Hx.
Qed.

(** *** Loading *)

(** X14: a load that succeeds returns [None] and has appended one object
    for each configured identifier to the registry, after the extensions
    that were there: calling [init_extensions] again loads everything a
    second time. *)
Theorem init_extensions_appends_all d (em em' : EM) v :
  init_extensions env d em = (Return v, em') ->
  v = VNone /\
  exists objs,
    _extensions em' = _extensions em ++ objs /\
    length objs = length (EXTENSIONS env).
Proof.
  unfold init_extensions, bind at 1, lift.
  destruct (GenericDict env d) as [sd|e]; [|discriminate].
  unfold bind, ret.
  destruct (for_each (EXTENSIONS env) (load_extension env sd) em)
    as [[[]|e] em1] eqn:Hload; [|discriminate].
  intros [= <- <-]. split; [reflexivity|].
  exact (load_all_return env sd _ _ _ Hload).
Qed.
End Lifecycle.

(** *** The name of the class *)

Lemma lower_not_upper c : is_lower c = true -> is_upper c = false.
Proof.
  unfold is_lower, is_upper. intros H.
  apply andb_true_iff in H as [H1 _]. apply Nat.leb_le in H1.
  apply andb_false_iff. right. apply Nat.leb_gt. lia.
Qed.

Lemma title_from_lower s : all_lower s = true -> title_from true s = s.
Proof.
  induction s as [|c s IH]; simpl; intros H; [reflexivity|].
  apply andb_true_iff in H as [Hc Hs]. rewrite Hc. simpl.
  rewrite IH by exact Hs. unfold to_lower.
  by rewrite (lower_not_upper c Hc).
Qed.

(** X15: for an identifier made of lower-case ASCII letters, as the file
    names of the extensions are, the class looked up in its module is the
    identifier with its first letter in upper case and the rest as it
    is. *)
Theorem title_of_lower_identifier c s :
  all_lower (String c s) = true ->
  title (String c s) = String (to_upper c) s /\
  is_upper (to_upper c) = true /\
  nat_of_ascii (to_upper c) = nat_of_ascii c - 32.
Proof.
  simpl. intros H. apply andb_true_iff in H as [Hc Hs].
  unfold title. simpl. rewrite Hc. simpl. rewrite (title_from_lower s Hs).
  split; [reflexivity|].
  unfold to_upper, is_upper. rewrite Hc.
  unfold is_lower in Hc. apply andb_true_iff in Hc as [H1 H2].
  apply Nat.leb_le in H1, H2.
  rewrite nat_ascii_embedding by lia. split; [|reflexivity].
  apply andb_true_iff. split; apply Nat.leb_le; lia.
Qed.

(** ** The further properties on concrete managers *)

Section MoreConcrete.
Import Examples.

Lemma listen_stops_after_shutdown_witness :
  let em := run env_bare exit_while_sniffing (started []) in
  _should_continue em = false /\
  listen_thread em = Alive L_sniff /\
  is_alive (listen_thread
              (_listen (Failed network_is_down) (_listen (Captured "F1") em)))
  = false.
Proof.
  intros em. split; [reflexivity|]. split; [reflexivity|].
  apply (listen_stops_after_shutdown (Captured "F1") (Failed network_is_down) em).
  reflexivity.
Defined.

Lemma no_dispatch_after_shutdown_witness :
  let exts := [replying "p" (Some ["G1"]) None] in
  let sniffing := run env_bare exit_while_sniffing (started exts) in
  let over := run env_bare exit_between_sniffs (started exts) in
  _should_continue sniffing = false /\
  _should_continue over = false /\
  listen_thread over <> Alive L_sniff /\
  _packets_to_send (run env_bare two_frames over) = _packets_to_send over /\
  _packets_to_send (run env_bare two_frames (_listen (Captured "F1") sniffing))
  = _packets_to_send (_listen (Captured "F1") sniffing).
Proof.
  intros exts sniffing over.
  assert (Hover : listen_thread over <> Alive L_sniff) by (vm_compute; discriminate).
  split; [reflexivity|]. split; [reflexivity|]. split; [exact Hover|]. split.
  - exact (proj1 (no_dispatch_after_shutdown env_bare over eq_refl) Hover two_frames).
  - exact (proj2 (no_dispatch_after_shutdown env_bare sniffing eq_refl)
             (Captured "F1") two_frames).
Defined.

Lemma send_stops_after_shutdown_witness :
  let em := (on_exit sending_three).2 in
  _should_continue em = false /\
  length (_packets_to_send em) + 4 <= length (replicate 7 (@None exn)) /\
  is_alive (send_thread (run env_bare (Tick_send <$> replicate 7 None) em)) = false.
Proof.
  intros em.
  assert (Hlen : length (_packets_to_send em) + 4 <= length (replicate 7 (@None exn)))
    by (vm_compute; lia).
  split; [reflexivity|]. split; [exact Hlen|].
  exact (send_stops_after_shutdown env_bare (replicate 7 None) em eq_refl Hlen).
Defined.

Lemma send_runs_until_shutdown_witness :
  let sched := [Tick_send None; Tick_listen (Captured "F1"); Call_get_output;
                Tick_send None; Call_start_extensions; Tick_send None] in
  forallb calm sched = true /\
  sender_at_work sending_three /\
  sender_at_work (run env_bare sched sending_three).
Proof.
  intros sched.
  assert (Hw : sender_at_work sending_three).
  { split; [reflexivity|]. split; [vm_compute; discriminate | exact I]. }
  split; [reflexivity|]. split; [exact Hw|].
  exact (send_runs_until_shutdown env_bare sched sending_three eq_refl Hw).
Defined.

Lemma send_pass_in_order_witness :
  _socket sending_three = Some {| sent := []; closed := 0 |} /\
  send_thread sending_three = Alive (S_for 0) /\
  run env_bare (replicate 3 (Tick_send None)) sending_three
  = with_send_thread (Alive (S_for 3))
      (with_socket (Some {| sent := ["G1"; "G2"; "G3"]; closed := 0 |})
         sending_three).
Proof.
  split; [reflexivity|]. split; [reflexivity|].
  exact (send_pass_in_order env_bare sending_three {| sent := []; closed := 0 |} 0
           eq_refl eq_refl (Nat.le_0_l _)).
Defined.

Lemma send_repeats_the_queue_witness :
  _should_continue sending_three = true /\
  run env_bare
    (concat (replicate 2 (replicate 3 (Tick_send None)
                          ++ [Tick_send None; Tick_send None]))) sending_three
  = with_socket
      (Some {| sent := ["G1"; "G2"; "G3"; "G1"; "G2"; "G3"]; closed := 0 |})
      sending_three.
Proof.
  split; [reflexivity|].
  exact (send_repeats_the_queue env_bare 2 sending_three
           {| sent := []; closed := 0 |} eq_refl eq_refl eq_refl).
Defined.

Lemma get_output_failure_loses_output_witness :
  let em := started mute_in_the_middle in
  drains [replying "A" None (Some ["a1"; "a2"])] (heap em) [Some ["a1"; "a2"]] [] /\
  get_output em = (Raise log_unavailable, with_heap ["M"] em).
Proof.
  intros em.
  assert (H : drains [replying "A" None (Some ["a1"; "a2"])] (heap em)
                [Some ["a1"; "a2"]] []).
  { eapply drains_return; [reflexivity | constructor]. }
  split; [exact H|].
  exact (get_output_failure_loses_output em
           [replying "A" None (Some ["a1"; "a2"])]
           (mute "M" log_unavailable)
           [replying "B" None (Some ["b1"])]
           [Some ["a1"; "a2"]] [] log_unavailable ["M"] eq_refl H eq_refl).
Defined.

Lemma init_extensions_appends_all_witness :
  let r := init_extensions env_x_only () (__init__ []) in
  r.1 = Return VNone /\
  exists objs,
    _extensions r.2 = _extensions (@__init__ string journal []) ++ objs /\
    length objs = 1.
Proof.
  intros r.
  assert (H : init_extensions env_x_only () (__init__ []) = (Return VNone, r.2))
    by (vm_compute; reflexivity).
  split; [vm_compute; reflexivity|].
  exact (proj2 (init_extensions_appends_all env_x_only () (__init__ []) r.2 VNone H)).
Defined.

Lemma title_of_lower_identifier_witness :
  all_lower "deauth" = true /\ title "deauth" = "Deauth".
Proof.
  split; [reflexivity|].
  exact (proj1 (title_of_lower_identifier "d" "eauth" eq_refl)).
Defined.
End MoreConcrete.
